(** * Offline reconciliation core of the pharmacy point of sale

    A shallow embedding of [src/lib/sync.ts]: the bounded audit log
    ([auditLogStorage]), the configuration gate ([isSupabaseConfigured]),
    the queue replay ([processQueue], [processQueuedAction]), the full
    synchronisation ([fullSync]) and the merge ([mergeData]); with them
    [createAuditLog], the four upsert helpers, and the validation and the
    two submit handlers of the sign-in page ([src/pages/Auth.tsx]).

    JavaScript values are modelled as follows.
    - a string is a [string]; an optional or nullable field is an [option];
    - an array is a [list];
    - a [Map] is an association list in insertion order: [set] on a key that
      is present replaces the value in place, [set] on a new key appends;
    - [new Date(s)] is a parameter giving the time value of [s], or [None]
      when the date is invalid (its time value is NaN);
    - an async function is a function on the world (local storage, remote
      store, log of the requests sent) that returns normally or throws. *)

From Stdlib Require Import String Ascii List ZArith NArith Bool Lia Arith DecimalString.
Import ListNotations.

Local Open Scope string_scope.
Local Open Scope list_scope.

(* ================================================================== *)
(** ** Records that can be merged *)

(** The bound of [mergeData]'s type parameter:
    [T extends { id: string; updatedAt?: string; createdAt: string }]. *)
Class Syncable (T : Type) := {
  id : T -> string;
  updatedAt : T -> option string;
  createdAt : T -> string
}.

(** Truthiness of an optional string: [undefined], [null] and the empty
    string are falsy. *)
Definition truthy (o : option string) : bool :=
  match o with
  | None => false
  | Some s => negb (String.eqb s "")
  end.

(* ================================================================== *)
(** ** The JavaScript [Map], keyed by strings *)

Module JsMap.
Section JsMap.
Variable V : Type.

Definition t := list (string * V).

Definition empty : t := [].

Fixpoint get (k : string) (m : t) : option V :=
  match m with
  | [] => None
  | (k', v) :: m' => if String.eqb k k' then Some v else get k m'
  end.

Fixpoint set (k : string) (v : V) (m : t) : t :=
  match m with
  | [] => [(k, v)]
  | (k', v') :: m' =>
      if String.eqb k k' then (k, v) :: m' else (k', v') :: set k v m'
  end.

Definition keys (m : t) : list string := map fst m.

Definition values (m : t) : list V := map snd m.
End JsMap.

Arguments get {V} k m.
Arguments set {V} k v m.
Arguments keys {V} m.
Arguments values {V} m.
End JsMap.

(* ================================================================== *)
(** ** mergeData *)

Section Merge.
(** [dateValue s] is the time value of [new Date(s)]; [None] is NaN. *)
Variable dateValue : string -> option Z.

Context {T : Type} `{Syncable T}.

(** The time value of [new Date(item.updatedAt)].  [new Date(undefined)]
    is an invalid date. *)
Definition dateOf (o : option string) : option Z :=
  match o with
  | Some s => dateValue s
  | None => None
  end.

(** [new Date(a) > new Date(b)]: both operands become numbers, and a
    comparison with NaN is false. *)
Definition dateGt (a b : option string) : bool :=
  match dateOf a, dateOf b with
  | Some x, Some y => Z.gtb x y
  | _, _ => false
  end.

(** [remote.forEach(item => merged.set(item.id, item))] *)
Definition addRemote (merged : JsMap.t T) (item : T) : JsMap.t T :=
  JsMap.set (id item) item merged.

(** The callback of [local.forEach]. *)
Definition addLocal (merged : JsMap.t T) (item : T) : JsMap.t T :=
  match JsMap.get (id item) merged with
  | None => JsMap.set (id item) item merged
  | Some remoteItem =>
      if truthy (updatedAt item) && truthy (updatedAt remoteItem) then
        if dateGt (updatedAt item) (updatedAt remoteItem)
        then JsMap.set (id item) item merged
        else merged
      else merged
  end.

Definition mergeData (local remote : list T) : list T :=
  let merged := fold_left addRemote remote (JsMap.empty T) in
  let merged := fold_left addLocal local merged in
  JsMap.values merged.

(** The record the output holds for an id. *)
Definition recordFor (k : string) (out : list T) : option T :=
  find (fun x => String.eqb (id x) k) out.

End Merge.

(* ================================================================== *)
(** ** String.prototype.includes *)

Fixpoint includes (search hay : string) {struct hay} : bool :=
  if String.prefix search hay then true
  else match hay with
       | EmptyString => false
       | String _ rest => includes search rest
       end.

(* ================================================================== *)
(** ** The audit log *)

Module auditLogStorage.

Record AuditLog := {
  id : string;
  userId : string;
  username : string;
  action : string;
  entityType : string;
  entityId : string;
  details : string;
  timestamp : string
}.

(** What [localStorage] holds under [AUDIT_LOG_KEY]: nothing (or the empty
    string), the JSON text of an array of entries, or something that makes
    [getItem] or [JSON.parse] throw. *)
Inductive Item :=
| Absent
| Stored (logs : list AuditLog)
| Unreadable.

Definition getAll (item : Item) : list AuditLog :=
  match item with
  | Absent => []
  | Stored logs => logs
  | Unreadable => []
  end.

(** [logs.splice(0, n)] removes the first [n] elements. *)
Definition splice0 (n : nat) (logs : list AuditLog) : list AuditLog :=
  skipn n logs.

(** [add(log)].  [setItemOk] tells whether [localStorage.setItem] accepts
    the write; when it throws (quota), the error is caught and the stored
    item stays as it was. *)
Definition add (log : AuditLog) (setItemOk : bool) (item : Item) : Item :=
  let logs := getAll item ++ [log] in
  let logs :=
    if (1000 <? List.length logs)%nat
    then splice0 (List.length logs - 1000) logs
    else logs in
  if setItemOk then Stored logs else item.

Definition clear (item : Item) : Item := Absent.

(** A run of [add] calls, each with the outcome of its write. *)
Definition addAll (calls : list (AuditLog * bool)) (item : Item) : Item :=
  fold_left (fun it c => add (fst c) (snd c) it) calls item.

(** A run of [add] calls whose writes are all accepted. *)
Definition written (logs : list AuditLog) : list (AuditLog * bool) :=
  map (fun e => (e, true)) logs.

(** The last [n] entries of a log. *)
Definition mostRecent (n : nat) (logs : list AuditLog) : list AuditLog :=
  skipn (List.length logs - n) logs.

End auditLogStorage.

(* ================================================================== *)
(** ** The local store ([./storage]) *)

(** Modelled from the spec: the record types [Medicine], [Sale], [Refund]
    and [Expense] of [./storage], which is not among the sources.  One type
    stands for the four: the three fields the reconciliation reads and the
    collection's own fields, opaque here. *)
Record Entity := {
  entity_id : string;
  entity_updatedAt : option string;
  entity_createdAt : string;
  entity_fields : string
}.

#[export] Instance Entity_Syncable : Syncable Entity := {
  id := entity_id;
  updatedAt := entity_updatedAt;
  createdAt := entity_createdAt
}.

Module QueuedAction.
(** Modelled from the spec: the type [QueuedAction] of [./storage].  The
    fields [type] and [action] are strings at run time, whatever union of
    literals the declaration gives them. *)
Record t := {
  id : string;
  type : string;
  action : string;
  data : Entity;
  createdAt : string
}.
End QueuedAction.

(** Modelled from the spec: what [./storage] keeps on the device, the four
    collections, the mutation queue and the connectivity flag. *)
Record Store := {
  medicines : list Entity;
  sales : list Entity;
  refunds : list Entity;
  expenses : list Entity;
  queue : list QueuedAction.t;
  offline : bool
}.

Module medicineStorage.
(** Modelled from the spec: [medicineStorage.getAll] of [./storage], the
    snapshot of the collection. *)
Definition getAll (s : Store) : list Entity := medicines s.

(** Modelled from the spec: [medicineStorage.save] of [./storage], which
    replaces the whole snapshot. *)
Definition save (l : list Entity) (s : Store) : Store :=
  {| medicines := l; sales := sales s; refunds := refunds s;
     expenses := expenses s; queue := queue s; offline := offline s |}.
End medicineStorage.

Module salesStorage.
(** Modelled from the spec: [salesStorage.getAll] of [./storage]. *)
Definition getAll (s : Store) : list Entity := sales s.

(** Modelled from the spec: [salesStorage.save] of [./storage]. *)
Definition save (l : list Entity) (s : Store) : Store :=
  {| medicines := medicines s; sales := l; refunds := refunds s;
     expenses := expenses s; queue := queue s; offline := offline s |}.
End salesStorage.

Module refundsStorage.
(** Modelled from the spec: [refundsStorage.getAll] of [./storage]. *)
Definition getAll (s : Store) : list Entity := refunds s.

(** Modelled from the spec: [refundsStorage.save] of [./storage]. *)
Definition save (l : list Entity) (s : Store) : Store :=
  {| medicines := medicines s; sales := sales s; refunds := l;
     expenses := expenses s; queue := queue s; offline := offline s |}.
End refundsStorage.

Module expensesStorage.
(** Modelled from the spec: [expensesStorage.getAll] of [./storage]. *)
Definition getAll (s : Store) : list Entity := expenses s.

(** Modelled from the spec: [expensesStorage.save] of [./storage]. *)
Definition save (l : list Entity) (s : Store) : Store :=
  {| medicines := medicines s; sales := sales s; refunds := refunds s;
     expenses := l; queue := queue s; offline := offline s |}.
End expensesStorage.

Module queueStorage.
(** Modelled from the spec: [queueStorage.getAll] of [./storage], a
    read-only peek at the pending actions in the order they were queued. *)
Definition getAll (s : Store) : list QueuedAction.t := queue s.

(** Modelled from the spec: [queueStorage.remove] of [./storage], removal
    by id, which does nothing when the id is not queued. *)
Definition remove (actionId : string) (s : Store) : Store :=
  {| medicines := medicines s; sales := sales s; refunds := refunds s;
     expenses := expenses s;
     queue := filter (fun a => negb (String.eqb (QueuedAction.id a) actionId))
                     (queue s);
     offline := offline s |}.
End queueStorage.

Module offlineStorage.
(** Modelled from the spec: [offlineStorage.setOffline] of [./storage],
    which writes the process-wide connectivity flag. *)
Definition setOffline (b : bool) (s : Store) : Store :=
  {| medicines := medicines s; sales := sales s; refunds := refunds s;
     expenses := expenses s; queue := queue s; offline := b |}.
End offlineStorage.

(* ================================================================== *)
(** ** Configuration *)

(** [import.meta.env]: a variable that is not set is [undefined]. *)
Record Env := {
  VITE_SUPABASE_URL : option string;
  VITE_SUPABASE_ANON_KEY : option string
}.

(** [x || ''] *)
Definition orEmpty (x : option string) : string :=
  match x with
  | Some s => s
  | None => ""
  end.

Definition isSupabaseConfigured (env : Env) : bool :=
  let url := orEmpty (VITE_SUPABASE_URL env) in
  let key := orEmpty (VITE_SUPABASE_ANON_KEY env) in
  includes "supabase.co" url && negb (includes "placeholder" key).

(* ================================================================== *)
(** ** The remote gateway *)

(** A thrown or returned error value. *)
Definition Err := string.

(** The requests built on [supabase.from(table)]. *)
Inductive Request :=
| Upsert (table : string) (rows : list Entity)
| Select (table : string)
| Insert (table : string) (row : Entity)
| Update (table : string) (row : Entity) (eqId : string)
| Delete (table : string) (eqId : string).

(** The object a request resolves to: [{ data, error }].  The sync helpers
    read [error] ([syncMedicines]), [fullSync] reads [data]. *)
Record Result := {
  data : option (list Entity);
  error : option Err
}.

(** A settled promise. *)
Inductive Settled :=
| Fulfilled (r : Result)
| Rejected (e : Err).

(** How an async function completes. *)
Inductive Completion (A : Type) :=
| Normal (a : A)
| Throws (e : Err).

Arguments Normal {A} a.
Arguments Throws {A} e.

Section Sync.
Variable dateValue : string -> option Z.

(** The remote store: any deterministic machine that answers a request and
    moves to a next state. *)
Variable Remote : Type.
Variable respond : Remote -> Request -> Settled * Remote.

Variable env : Env.

(** The world an operation runs in: the local store, the remote store and
    the requests sent so far, the latest last. *)
Record World := {
  store : Store;
  remote : Remote;
  sent : list Request
}.

Definition Async (A : Type) := World -> Completion A * World.

Definition ret {A} (a : A) : Async A := fun w => (Normal a, w).

Definition throw {A} (e : Err) : Async A := fun w => (Throws e, w).

Definition bind {A B} (m : Async A) (k : A -> Async B) : Async B :=
  fun w =>
    match m w with
    | (Normal a, w') => k a w'
    | (Throws e, w') => (Throws e, w')
    end.

Definition tryCatch {A} (body : Async A) (handler : Err -> Async A) : Async A :=
  fun w =>
    match body w with
    | (Normal a, w') => (Normal a, w')
    | (Throws e, w') => handler e w'
    end.

Definition gets {A} (f : Store -> A) : Async A :=
  fun w => (Normal (f (store w)), w).

Definition modify (f : Store -> Store) : Async unit :=
  fun w => (Normal tt,
            {| store := f (store w); remote := remote w; sent := sent w |}).

(** Sending a request: the remote answers, the request is logged, and the
    promise is returned settled. *)
Definition send (req : Request) : Async Settled :=
  fun w =>
    let (p, r') := respond (remote w) req in
    (Normal p, {| store := store w; remote := r'; sent := sent w ++ [req] |}).

(** [await p] on a settled promise. *)
Definition awaitSettled (p : Settled) : Async Result :=
  match p with
  | Fulfilled r => ret r
  | Rejected e => throw e
  end.

Local Notation "x <- m ;; k" := (bind m (fun x => k))
  (at level 61, m at next level, right associativity).
Local Notation "m ;;; k" := (bind m (fun _ => k))
  (at level 61, right associativity).

(** [await supabase.from(...)...] *)
Definition await (req : Request) : Async Result :=
  p <- send req ;; awaitSettled p.

(** [for (const x of l) body] *)
Fixpoint forOf {A} (l : list A) (body : A -> Async unit) : Async unit :=
  match l with
  | [] => ret tt
  | x :: l' => body x ;;; forOf l' body
  end.

(** [await Promise.all([p1, p2, p3, p4])] on four requests already sent:
    the results in order when all are fulfilled, the error of a rejected
    one otherwise (here the first in the order of the array). *)
Definition promiseAll4 (p1 p2 p3 p4 : Settled)
  : Async (Result * Result * Result * Result) :=
  r1 <- awaitSettled p1 ;;
  r2 <- awaitSettled p2 ;;
  r3 <- awaitSettled p3 ;;
  r4 <- awaitSettled p4 ;;
  ret (r1, r2, r3, r4).

(** *** The four upsert helpers *)

Definition syncMedicines : Async unit :=
  if negb (isSupabaseConfigured env) then ret tt else
  medicines <- gets medicineStorage.getAll ;;
  r <- await (Upsert "medicines" medicines) ;;
  match error r with
  | Some e => throw e
  | None => ret tt
  end.

Definition syncSales : Async unit :=
  if negb (isSupabaseConfigured env) then ret tt else
  sales <- gets salesStorage.getAll ;;
  r <- await (Upsert "sales" sales) ;;
  match error r with
  | Some e => throw e
  | None => ret tt
  end.

Definition syncRefunds : Async unit :=
  if negb (isSupabaseConfigured env) then ret tt else
  refunds <- gets refundsStorage.getAll ;;
  r <- await (Upsert "refunds" refunds) ;;
  match error r with
  | Some e => throw e
  | None => ret tt
  end.

Definition syncExpenses : Async unit :=
  if negb (isSupabaseConfigured env) then ret tt else
  expenses <- gets expensesStorage.getAll ;;
  r <- await (Upsert "expenses" expenses) ;;
  match error r with
  | Some e => throw e
  | None => ret tt
  end.

(** *** Queue replay *)

Definition tableOf (type : string) : string :=
  if String.eqb type "medicine" then "medicines"
  else if String.eqb type "sale" then "sales"
  else if String.eqb type "refund" then "refunds"
  else "expenses".

(** The awaited result is dropped: neither [data] nor [error] is read. *)
Definition processQueuedAction (action : QueuedAction.t) : Async unit :=
  let table := tableOf (QueuedAction.type action) in
  if String.eqb (QueuedAction.action action) "create" then
    await (Insert table (QueuedAction.data action)) ;;; ret tt
  else if String.eqb (QueuedAction.action action) "update" then
    await (Update table (QueuedAction.data action)
                  (id (QueuedAction.data action))) ;;; ret tt
  else if String.eqb (QueuedAction.action action) "delete" then
    await (Delete table (id (QueuedAction.data action))) ;;; ret tt
  else ret tt.

(** The body of the loop of [processQueue]; the error caught is only
    logged to the console. *)
Definition processQueueStep (action : QueuedAction.t) : Async unit :=
  tryCatch
    (processQueuedAction action ;;;
     modify (queueStorage.remove (QueuedAction.id action)))
    (fun _ => ret tt).

Definition processQueue : Async unit :=
  if negb (isSupabaseConfigured env) then ret tt else
  queue <- gets queueStorage.getAll ;;
  forOf queue processQueueStep.

(** *** Full synchronisation *)

(** [if (result.data) { save(mergeData(getAll(), result.data)) }] *)
Definition mergeInto (getAll : Store -> list Entity)
    (save : list Entity -> Store -> Store) (result : Result) : Async unit :=
  match data result with
  | Some remoteRows =>
      localRows <- gets getAll ;;
      modify (save (mergeData dateValue localRows remoteRows))
  | None => ret tt
  end.

Definition fullSync : Async unit :=
  if negb (isSupabaseConfigured env) then ret tt else
  tryCatch
    (p1 <- send (Select "medicines") ;;
     p2 <- send (Select "sales") ;;
     p3 <- send (Select "refunds") ;;
     p4 <- send (Select "expenses") ;;
     results <- promiseAll4 p1 p2 p3 p4 ;;
     let '(medicinesResult, salesResult, refundsResult, expensesResult) :=
       results in
     mergeInto medicineStorage.getAll medicineStorage.save medicinesResult ;;;
     mergeInto salesStorage.getAll salesStorage.save salesResult ;;;
     mergeInto refundsStorage.getAll refundsStorage.save refundsResult ;;;
     mergeInto expensesStorage.getAll expensesStorage.save expensesResult ;;;
     processQueue ;;;
     modify (offlineStorage.setOffline false))
    (fun e => modify (offlineStorage.setOffline true) ;;; throw e).

End Sync.

Arguments store {Remote} w.
Arguments remote {Remote} w.
Arguments sent {Remote} w.
Arguments Build_World {Remote} store remote sent.
Arguments ret {Remote A} a _.
Arguments throw {Remote A} e _.
Arguments bind {Remote A B} m k _.
Arguments tryCatch {Remote A} body handler _.
Arguments gets {Remote A} f _.
Arguments modify {Remote} f _.
Arguments send {Remote} respond req _.
Arguments awaitSettled {Remote} p _.
Arguments await {Remote} respond req _.
Arguments forOf {Remote A} l body _.
Arguments promiseAll4 {Remote} p1 p2 p3 p4 _.
Arguments syncMedicines {Remote} respond env _.
Arguments syncSales {Remote} respond env _.
Arguments syncRefunds {Remote} respond env _.
Arguments syncExpenses {Remote} respond env _.
Arguments processQueuedAction {Remote} respond action _.
Arguments processQueueStep {Remote} respond action _.
Arguments processQueue {Remote} respond env _.
Arguments mergeInto dateValue {Remote} getAll save result _.
Arguments fullSync dateValue {Remote} respond env _.

(* ================================================================== *)
(** ** Vocabulary of the statements *)

Section MergeVocabulary.
Variable dateValue : string -> option Z.
Context {T : Type} `{Syncable T}.

(** The test under which [addLocal] lets [item] replace the record [cur]
    the map holds for its id. *)
Definition newer (item cur : T) : bool :=
  truthy (updatedAt item) && truthy (updatedAt cur)
  && dateGt dateValue (updatedAt item) (updatedAt cur).

(** The record [addLocal] leaves for the id of [item], given what the
    map held before. *)
Definition outcome (before : option T) (item : T) : T :=
  match before with
  | None => item
  | Some cur => if newer item cur then item else cur
  end.

(** Every entry of the map is filed under the id of its record. *)
Definition keyed (m : JsMap.t T) : Prop :=
  Forall (fun p => id (snd p) = fst p) m.

(** A well-formed map: distinct keys, each the id of its record. *)
Definition wellKeyed (m : JsMap.t T) : Prop :=
  NoDup (JsMap.keys m) /\ keyed m.

(** [settles cur v]: the record [v] is [cur] or has replaced it. *)
Definition settles (cur v : T) : Prop :=
  v = cur \/ newer v cur = true.

(** Entry by entry, [m1] has the keys of [m0] in the same order and a
    record that settles the one of [m0]. *)
Definition refines (m0 m1 : JsMap.t T) : Prop :=
  Forall2 (fun p0 p1 => fst p1 = fst p0 /\ settles (snd p0) (snd p1)) m0 m1.
End MergeVocabulary.

(** The request [processQueuedAction] sends for an action, if any. *)
Definition requestOf (action : QueuedAction.t) : option Request :=
  let table := tableOf (QueuedAction.type action) in
  if String.eqb (QueuedAction.action action) "create" then
    Some (Insert table (QueuedAction.data action))
  else if String.eqb (QueuedAction.action action) "update" then
    Some (Update table (QueuedAction.data action)
                 (id (QueuedAction.data action)))
  else if String.eqb (QueuedAction.action action) "delete" then
    Some (Delete table (id (QueuedAction.data action)))
  else None.

(** The requests of the actions of a queue, in the order of the queue. *)
Definition requestsOf (queue : list QueuedAction.t) : list Request :=
  flat_map (fun a => match requestOf a with
                     | Some req => [req]
                     | None => []
                     end) queue.

(** The world after a request was sent and answered. *)
Definition answered {Remote : Type} (w : World Remote) (req : Request)
    (r' : Remote) : World Remote :=
  {| store := store w; remote := r'; sent := sent w ++ [req] |}.

(** The world with another local store. *)
Definition withStore {Remote : Type} (w : World Remote) (s : Store)
    : World Remote :=
  {| store := s; remote := remote w; sent := sent w |}.

(** The four requests [fullSync] starts with. *)
Definition selects : list Request :=
  [Select "medicines"; Select "sales"; Select "refunds"; Select "expenses"].

(** What a fulfilled fetch does to a collection. *)
Definition mergedWith (dateValue : string -> option Z)
    (localRows : list Entity) (result : Result) : list Entity :=
  match data result with
  | Some remoteRows => mergeData dateValue localRows remoteRows
  | None => localRows
  end.

(** An action whose [action] field is none of the three known ones. *)
Definition unknownAction (a : QueuedAction.t) : Prop :=
  QueuedAction.action a <> "create" /\
  QueuedAction.action a <> "update" /\
  QueuedAction.action a <> "delete".

(* ================================================================== *)
(** ** Sample data *)

Module Sample.

(** Time values of the two timestamps of the example scenario, as
    [new Date] computes them; every other string of the samples is an
    invalid date. *)
Definition dates (s : string) : option Z :=
  if String.eqb s "2024-01-01T00:00:00Z" then Some 1704067200000%Z
  else if String.eqb s "2024-01-02T00:00:00Z" then Some 1704153600000%Z
  else None.

Definition entity (i : string) (u : option string) (f : string) : Entity :=
  {| entity_id := i; entity_updatedAt := u;
     entity_createdAt := "2023-12-31T00:00:00Z"; entity_fields := f |}.

Definition m1Local := entity "m1" (Some "2024-01-02T00:00:00Z") "local".
Definition m1Remote := entity "m1" (Some "2024-01-01T00:00:00Z") "remote".
Definition m2Local := entity "m2" None "local".
Definition m3Remote := entity "m3" None "remote".

Definition localRows := [m1Local; m2Local].
Definition remoteRows := [m1Remote; m3Remote].

Definition configured : Env :=
  {| VITE_SUPABASE_URL := Some "https://pharmacy.supabase.co";
     VITE_SUPABASE_ANON_KEY := Some "anon-key" |}.

Definition notConfigured : Env :=
  {| VITE_SUPABASE_URL := None; VITE_SUPABASE_ANON_KEY := None |}.

(** The queued action of the example scenario: delete sale [s1]. *)
Definition deleteS1 : QueuedAction.t :=
  {| QueuedAction.id := "q1"; QueuedAction.type := "sale";
     QueuedAction.action := "delete";
     QueuedAction.data := entity "s1" None "";
     QueuedAction.createdAt := "2024-01-02T00:00:00Z" |}.

(** A queued action whose [action] is not one of the three known. *)
Definition archiveS1 : QueuedAction.t :=
  {| QueuedAction.id := "q2"; QueuedAction.type := "sale";
     QueuedAction.action := "archive";
     QueuedAction.data := entity "s1" None "";
     QueuedAction.createdAt := "2024-01-02T00:00:00Z" |}.

Definition localStore : Store :=
  {| medicines := localRows; sales := localRows; refunds := [];
     expenses := []; queue := [deleteS1]; offline := true |}.

(** A queued update of medicine [m1]. *)
Definition updateM1 : QueuedAction.t :=
  {| QueuedAction.id := "q3"; QueuedAction.type := "medicine";
     QueuedAction.action := "update";
     QueuedAction.data := m1Local;
     QueuedAction.createdAt := "2024-01-02T00:00:00Z" |}.

Definition pendingStore : Store :=
  {| medicines := localRows; sales := []; refunds := [];
     expenses := []; queue := [deleteS1; updateM1]; offline := true |}.

Definition mixedStore : Store :=
  {| medicines := localRows; sales := []; refunds := [];
     expenses := []; queue := [archiveS1; deleteS1]; offline := false |}.

(** The result of a request the remote store refused. *)
Definition refused : Result :=
  {| data := None; error := Some "permission denied" |}.

Definition rows (l : list Entity) : Result :=
  {| data := Some l; error := None |}.

(** A remote store that refuses every request: each promise is fulfilled
    with an error and no data. *)
Definition refusing (r : unit) (req : Request) : Settled * unit :=
  (Fulfilled refused, r).

(** A remote store that refuses to list the medicines and answers every
    other request. *)
Definition medicinesRefused (r : unit) (req : Request) : Settled * unit :=
  match req with
  | Select table =>
      if String.eqb table "medicines" then (Fulfilled refused, r)
      else (Fulfilled (rows remoteRows), r)
  | _ => (Fulfilled (rows []), r)
  end.

(** A remote store out of reach: every promise is rejected. *)
Definition rejecting (r : unit) (req : Request) : Settled * unit :=
  (Rejected "Failed to fetch", r).

(** A remote store that accepts every request. *)
Definition accepting (r : unit) (req : Request) : Settled * unit :=
  (Fulfilled (rows []), r).

Definition world (s : Store) : World unit :=
  {| store := s; remote := tt; sent := [] |}.

(** Audit entries numbered from 1. *)
Definition logEntry (n : nat) : auditLogStorage.AuditLog :=
  {| auditLogStorage.id := NilZero.string_of_uint (Nat.to_uint n);
     auditLogStorage.userId := "u1";
     auditLogStorage.username := "cashier";
     auditLogStorage.action := "create";
     auditLogStorage.entityType := "sale";
     auditLogStorage.entityId := "s1";
     auditLogStorage.details := "";
     auditLogStorage.timestamp := "2024-01-02T00:00:00Z" |}.

End Sample.

(* ================================================================== *)
(** ** createAuditLog *)

Module currentUser.

(** What [localStorage] holds under [medical_pos_current_user], as
    [JSON.parse(getItem(...) || '{}')] reads it: nothing or the empty
    string (the text of an empty object is parsed instead), a text that
    makes [JSON.parse] throw, the text [null] (reading a property of [null]
    throws), or a value with its [id] and [username], each [None] when the
    value has no such property. *)
Inductive Item :=
| Absent
| Malformed
| JsonNull
| User (id username : option string).

End currentUser.

(** [x || fallback] on an optional string. *)
Definition orElse (x : option string) (fallback : string) : string :=
  match x with
  | Some s => if truthy (Some s) then s else fallback
  | None => fallback
  end.

(** [createAuditLog(action, entityType, entityId, details)].  [uuid] is
    the value of [crypto.randomUUID()], [now] the value of
    [new Date().toISOString()], [setItemOk] the outcome of the write of
    [auditLogStorage.add].  The parse of the current user is outside any
    [try]. *)
Definition createAuditLog (user : currentUser.Item) (uuid now : string)
    (setItemOk : bool) (action entityType entityId details : string)
    (item : auditLogStorage.Item)
    : Completion unit * auditLogStorage.Item :=
  match user with
  | currentUser.Malformed => (Throws "SyntaxError", item)
  | currentUser.JsonNull => (Throws "TypeError", item)
  | _ =>
      let (userId, username) :=
        match user with
        | currentUser.User i u => (i, u)
        | _ => (None, None)
        end in
      let log :=
        {| auditLogStorage.id := uuid;
           auditLogStorage.userId := orElse userId "unknown";
           auditLogStorage.username := orElse username "System";
           auditLogStorage.action := action;
           auditLogStorage.entityType := entityType;
           auditLogStorage.entityId := entityId;
           auditLogStorage.details := details;
           auditLogStorage.timestamp := now |} in
      (Normal tt, auditLogStorage.add log setItemOk item)
  end.

(* ================================================================== *)
(** ** The sign-in page ([src/pages/Auth.tsx]) *)

Module Auth.

(** A JavaScript string: its UTF-16 code units. *)
Definition JsString := list N.

(** The code units of a string of ASCII characters. *)
Definition ofString (s : string) : JsString :=
  map N_of_ascii (list_ascii_of_string s).

(** The white space and line terminators [String.prototype.trim] removes. *)
Definition isWhiteSpace (c : N) : bool :=
  ((9 <=? c) && (c <=? 13) || (c =? 32) || (c =? 160) || (c =? 5760)
   || (8192 <=? c) && (c <=? 8202) || (c =? 8232) || (c =? 8233)
   || (c =? 8239) || (c =? 8287) || (c =? 12288) || (c =? 65279))%N.

Fixpoint trimStart (s : JsString) : JsString :=
  match s with
  | [] => []
  | c :: s' => if isWhiteSpace c then trimStart s' else s
  end.

Definition trimEnd (s : JsString) : JsString := rev (trimStart (rev s)).

(** [s.trim()] *)
Definition trim (s : JsString) : JsString := trimEnd (trimStart s).

(** The class [[a-zA-Z0-9_]]. *)
Definition isWordChar (c : N) : bool :=
  ((97 <=? c) && (c <=? 122) || (65 <=? c) && (c <=? 90)
   || (48 <=? c) && (c <=? 57) || (c =? 95))%N.

(** [/^[a-zA-Z0-9_]+$/.test(s)] *)
Definition usernamePattern (s : JsString) : bool :=
  match s with
  | [] => false
  | _ :: _ => forallb isWordChar s
  end.

(** The checks of [loginSchema.username], in the order of the chain:
    [trim] replaces the input, then each failing check adds its message. *)
Definition usernameIssues (username : JsString) : JsString * list string :=
  let s := trim username in
  (s,
   (if (List.length s <? 3)%nat
    then ["Username must be at least 3 characters"] else [])
   ++ (if (50 <? List.length s)%nat
       then ["Username must be less than 50 characters"] else [])
   ++ (if usernamePattern s then []
       else ["Username can only contain letters, numbers, and underscores"])).

(** The checks of [loginSchema.password]. *)
Definition passwordIssues (password : JsString) : list string :=
  (if (List.length password <? 4)%nat
   then ["Password must be at least 4 characters"] else [])
  ++ (if (100 <? List.length password)%nat
      then ["Password must be less than 100 characters"] else []).

(** The outcome of [loginSchema.parse]: the validated value, or the
    [ZodError] with its issues, those of [username] before those of
    [password]. *)
Inductive Parsed :=
| Valid (username password : JsString)
| ZodError (first : string) (others : list string).

Definition loginSchema_parse (username password : JsString) : Parsed :=
  let (u, issues) := usernameIssues username in
  match issues ++ passwordIssues password with
  | [] => Valid u password
  | first :: others => ZodError first others
  end.

(** What [authStorage.login] and [authStorage.register] return. *)
Record Outcome := {
  success : bool;
  error : option string;
  needsApproval : bool
}.

(** What a handler does, in order. *)
Inductive Effect :=
| PreventDefault
| SetLoading (loading : bool)
| CallLogin (username password : JsString)
| CallRegister (username password : JsString)
| ToastSuccess (message : string)
| ToastError (message : string)
| Navigate (path : string)
| SetUsername (value : JsString)
| SetPassword (value : JsString).

Section Handlers.
(** [authStorage.login] and [authStorage.register] of [./storage], which
    is not among the sources: any function of the two strings that returns
    an outcome or throws. *)
Variable login : JsString -> JsString -> Completion Outcome.
Variable register : JsString -> JsString -> Completion Outcome.

(** The [try] block of [handleLogin] with its [catch]. *)
Definition loginAttempt (username password : JsString) : list Effect :=
  match loginSchema_parse username password with
  | ZodError first _ => [ToastError first]
  | Valid u p =>
      CallLogin u p ::
      match login u p with
      | Throws _ => [ToastError "An error occurred during login"]
      | Normal result =>
          if success result
          then [ToastSuccess "Logged in successfully"; Navigate "/dashboard"]
          else [ToastError (orElse (error result) "Login failed")]
      end
  end.

Definition handleLogin (username password : JsString) : list Effect :=
  [PreventDefault; SetLoading true]
  ++ loginAttempt username password
  ++ [SetLoading false].

(** The [try] block of [handleSignup] with its [catch]. *)
Definition signupAttempt (username password : JsString) : list Effect :=
  match loginSchema_parse username password with
  | ZodError first _ => [ToastError first]
  | Valid u p =>
      CallRegister u p ::
      match register u p with
      | Throws _ => [ToastError "An error occurred during registration"]
      | Normal result =>
          if success result then
            if needsApproval result
            then [ToastSuccess "Account created! Waiting for admin approval.";
                  SetUsername []; SetPassword []]
            else [ToastSuccess "Account created successfully!";
                  Navigate "/dashboard"]
          else [ToastError (orElse (error result) "Registration failed")]
      end
  end.

Definition handleSignup (username password : JsString) : list Effect :=
  [PreventDefault; SetLoading true]
  ++ signupAttempt username password
  ++ [SetLoading false].

End Handlers.

(** The toasts among the effects. *)
Definition isToast (e : Effect) : bool :=
  match e with
  | ToastSuccess _ | ToastError _ => true
  | _ => false
  end.

(** The navigations among the effects. *)
Definition isNavigate (e : Effect) : bool :=
  match e with
  | Navigate _ => true
  | _ => false
  end.

(** The calls of [authStorage] among the effects. *)
Definition isCall (e : Effect) : bool :=
  match e with
  | CallLogin _ _ | CallRegister _ _ => true
  | _ => false
  end.

End Auth.

(* ================================================================== *)
(** ** More vocabulary *)

(** The entries of the [add] calls whose write was accepted. *)
Definition acceptedLogs (calls : list (auditLogStorage.AuditLog * bool))
    : list auditLogStorage.AuditLog :=
  map fst (filter snd calls).

(** A remote store that fulfils every promise, with whatever result. *)
Definition alwaysFulfils {Remote : Type}
    (respond : Remote -> Request -> Settled * Remote) : Prop :=
  forall r req, exists res r', respond r req = (Fulfilled res, r').

(** A remote store that rejects every promise. *)
Definition alwaysRejects {Remote : Type}
    (respond : Remote -> Request -> Settled * Remote) : Prop :=
  forall r req, exists e r', respond r req = (Rejected e, r').

(** How an upsert helper completes on a settled promise. *)
Definition upsertCompletion (p : Settled) : Completion unit :=
  match p with
  | Fulfilled res =>
      match error res with
      | Some e => Throws e
      | None => Normal tt
      end
  | Rejected e => Throws e
  end.

(** The table a request is addressed to. *)
Definition requestTable (req : Request) : string :=
  match req with
  | Upsert table _ | Select table | Insert table _
  | Update table _ _ | Delete table _ => table
  end.

(** The four collections of a store. *)
Definition collections (s : Store)
    : list Entity * list Entity * list Entity * list Entity :=
  (medicines s, sales s, refunds s, expenses s).

(** The four promises of [fullSync], in the order of the array, the remote
    store answering one request after the other. *)
Definition fetches {Remote : Type}
    (respond : Remote -> Request -> Settled * Remote) (r : Remote)
    : list Settled :=
  let (p1, r1) := respond r (Select "medicines") in
  let (p2, r2) := respond r1 (Select "sales") in
  let (p3, r3) := respond r2 (Select "refunds") in
  let (p4, _) := respond r3 (Select "expenses") in
  [p1; p2; p3; p4].

(** The local store once the four results are merged into it. *)
Definition mergedStore (dateValue : string -> option Z) (s : Store)
    (x1 x2 x3 x4 : Result) : Store :=
  {| medicines := mergedWith dateValue (medicines s) x1;
     sales := mergedWith dateValue (sales s) x2;
     refunds := mergedWith dateValue (refunds s) x3;
     expenses := mergedWith dateValue (expenses s) x4;
     queue := queue s;
     offline := offline s |}.

(** A list of records filed under their ids. *)
Definition keyedList {T : Type} `{Syncable T} (l : list T) : JsMap.t T :=
  map (fun x => (id x, x)) l.

(** [h] contains [s]: some text, then [s], then some text. *)
Definition contains (s h : string) : Prop :=
  exists before after, h = (before ++ s ++ after)%string.

(* ================================================================== *)
(** ** More sample data *)

Module Sample2.

(** A remote snapshot that holds the id [m1] twice. *)
Definition remoteTwice : list Entity := [Sample.m1Remote; Sample.m1Local].

(** Three [add] calls, the second of which is refused by the storage. *)
Definition calls : list (auditLogStorage.AuditLog * bool) :=
  [(Sample.logEntry 1, true); (Sample.logEntry 2, false);
   (Sample.logEntry 3, true)].

(** A queued creation whose type is misspelt. *)
Definition createOdd : QueuedAction.t :=
  {| QueuedAction.id := "q4"; QueuedAction.type := "medicines";
     QueuedAction.action := "create";
     QueuedAction.data := Sample.m2Local;
     QueuedAction.createdAt := "2024-01-02T00:00:00Z" |}.

(** An [authStorage] function that accepts everybody. *)
Definition welcome (username password : Auth.JsString)
    : Completion Auth.Outcome :=
  Normal {| Auth.success := true; Auth.error := None;
            Auth.needsApproval := false |}.

Definition paddedName : Auth.JsString := Auth.ofString "  bob_1 ".
Definition secret : Auth.JsString := Auth.ofString "secret".

End Sample2.

(* ================================================================== *)
(** ** Facts about the map *)

Section JsMapFacts.
Context {V : Type}.
Implicit Types (m : JsMap.t V) (k : string) (v : V).

Lemma get_None_iff k m : JsMap.get k m = None <-> ~ In k (JsMap.keys m).
Proof.
  induction m as [|[k' v'] m IH]; simpl.
  - tauto.
  - destruct (String.eqb_spec k k') as [->|Hne].
    + split; [discriminate | intros Hn; exfalso; apply Hn; now left].
    + rewrite IH. split.
      * intros Hn [He|Hi]; [congruence | tauto].
      * intros Hn Hi. apply Hn. now right.
Qed.

Lemma get_Some_in k v m : JsMap.get k m = Some v -> In (k, v) m.
Proof.
  induction m as [|[k' v'] m IH]; simpl; [discriminate|].
  destruct (String.eqb_spec k k') as [->|Hne].
  - intros [= ->]. now left.
  - intros Hg. right. auto.
Qed.

Lemma get_Some_key k v m : JsMap.get k m = Some v -> In k (JsMap.keys m).
Proof.
  intros Hg. apply get_Some_in in Hg.
  change k with (fst (k, v)). unfold JsMap.keys. now apply in_map.
Qed.

Lemma get_set_same k v m : JsMap.get k (JsMap.set k v m) = Some v.
Proof.
  induction m as [|[k' v'] m IH]; simpl.
  - now rewrite String.eqb_refl.
  - destruct (String.eqb_spec k k') as [->|Hne]; simpl.
    + now rewrite String.eqb_refl.
    + destruct (String.eqb_spec k k'); [contradiction | exact IH].
Qed.

Lemma get_set_other k k' v m :
  k <> k' -> JsMap.get k (JsMap.set k' v m) = JsMap.get k m.
Proof.
  intros Hne. induction m as [|[k2 v2] m IH]; simpl.
  - destruct (String.eqb_spec k k'); [contradiction | reflexivity].
  - destruct (String.eqb_spec k' k2) as [->|Hne2]; simpl.
    + destruct (String.eqb_spec k k2); [contradiction | reflexivity].
    + destruct (String.eqb_spec k k2); [reflexivity | exact IH].
Qed.

Lemma set_absent k v m :
  ~ In k (JsMap.keys m) -> JsMap.set k v m = m ++ [(k, v)].
Proof.
  induction m as [|[k' v'] m IH]; simpl; intros Hn.
  - reflexivity.
  - destruct (String.eqb_spec k k') as [->|Hne].
    + exfalso. apply Hn. now left.
    + f_equal. apply IH. tauto.
Qed.

Lemma set_app_left k v m1 m2 :
  In k (JsMap.keys m1) -> JsMap.set k v (m1 ++ m2) = JsMap.set k v m1 ++ m2.
Proof.
  induction m1 as [|[k' v'] m1 IH]; simpl; intros Hi.
  - contradiction.
  - destruct (String.eqb_spec k k') as [->|Hne]; [reflexivity|].
    simpl. f_equal. apply IH. destruct Hi; [congruence | assumption].
Qed.

Lemma set_app_right k v m1 m2 :
  ~ In k (JsMap.keys m1) -> JsMap.set k v (m1 ++ m2) = m1 ++ JsMap.set k v m2.
Proof.
  induction m1 as [|[k' v'] m1 IH]; simpl; intros Hn.
  - reflexivity.
  - destruct (String.eqb_spec k k') as [->|Hne].
    + exfalso. apply Hn. now left.
    + f_equal. apply IH. tauto.
Qed.

Lemma get_app_right k m1 m2 :
  ~ In k (JsMap.keys m1) -> JsMap.get k (m1 ++ m2) = JsMap.get k m2.
Proof.
  induction m1 as [|[k' v'] m1 IH]; simpl; intros Hn.
  - reflexivity.
  - destruct (String.eqb_spec k k') as [->|Hne].
    + exfalso. apply Hn. now left.
    + apply IH. tauto.
Qed.

Lemma get_app_left k v m1 m2 :
  JsMap.get k m1 = Some v -> JsMap.get k (m1 ++ m2) = Some v.
Proof.
  induction m1 as [|[k' v'] m1 IH]; simpl; [discriminate|].
  destruct (String.eqb k k'); auto.
Qed.

Lemma keys_set_present k v m :
  In k (JsMap.keys m) -> JsMap.keys (JsMap.set k v m) = JsMap.keys m.
Proof.
  induction m as [|[k' v'] m IH]; simpl; intros Hi.
  - contradiction.
  - destruct (String.eqb_spec k k') as [->|Hne]; simpl; [reflexivity|].
    f_equal. apply IH. destruct Hi; [congruence | assumption].
Qed.

Lemma keys_set_absent k v m :
  ~ In k (JsMap.keys m) -> JsMap.keys (JsMap.set k v m) = JsMap.keys m ++ [k].
Proof.
  intros Hn. rewrite set_absent by assumption.
  unfold JsMap.keys. now rewrite map_app.
Qed.

Lemma in_keys_set x k v m :
  In x (JsMap.keys (JsMap.set k v m)) <-> In x (JsMap.keys m) \/ x = k.
Proof.
  destruct (in_dec string_dec k (JsMap.keys m)) as [Hi|Hn].
  - rewrite keys_set_present by assumption.
    split; [tauto | intros [?| ->]; assumption].
  - rewrite keys_set_absent by assumption. rewrite in_app_iff. simpl.
    intuition congruence.
Qed.

Lemma NoDup_keys_set k v m :
  NoDup (JsMap.keys m) -> NoDup (JsMap.keys (JsMap.set k v m)).
Proof.
  intros Hnd.
  destruct (in_dec string_dec k (JsMap.keys m)) as [Hi|Hn].
  - now rewrite keys_set_present.
  - rewrite keys_set_absent by assumption.
    apply NoDup_app; [assumption | repeat constructor; simpl; tauto |].
    intros x Hx [<-|[]]. contradiction.
Qed.

Lemma in_set_inv p k v m :
  In p (JsMap.set k v m) -> p = (k, v) \/ In p m.
Proof.
  induction m as [|[k' v'] m IH]; simpl.
  - intros [<-|[]]. now left.
  - destruct (String.eqb_spec k k') as [->|Hne]; simpl.
    + intros [<-|Hi]; auto.
    + intros [<-|Hi]; auto. destruct (IH Hi); auto.
Qed.

End JsMapFacts.

(* ================================================================== *)
(** ** mergeData: the map stays well keyed *)

Section MergeFacts.
Variable dateValue : string -> option Z.
Context {T : Type} `{Syncable T}.
Implicit Types (m : JsMap.t T) (item cur : T) (k : string).

Lemma addLocal_cases m item :
  addLocal dateValue m item =
  match JsMap.get (id item) m with
  | None => JsMap.set (id item) item m
  | Some cur =>
      if newer dateValue item cur then JsMap.set (id item) item m else m
  end.
Proof.
  unfold addLocal, newer.
  destruct (JsMap.get (id item) m) as [cur|]; [|reflexivity].
  destruct (truthy (updatedAt item) && truthy (updatedAt cur)); reflexivity.
Qed.

Lemma keyed_set m item : keyed m -> keyed (JsMap.set (id item) item m).
Proof.
  unfold keyed. rewrite !Forall_forall. intros Hk p Hp.
  apply in_set_inv in Hp. destruct Hp as [->|Hp]; [reflexivity | auto].
Qed.

Lemma wellKeyed_empty : wellKeyed (JsMap.empty T).
Proof. split; constructor. Qed.

Lemma wellKeyed_set m item :
  wellKeyed m -> wellKeyed (JsMap.set (id item) item m).
Proof.
  intros [Hnd Hk]. split; [now apply NoDup_keys_set | now apply keyed_set].
Qed.

Lemma wellKeyed_addRemote m item : wellKeyed m -> wellKeyed (addRemote m item).
Proof. apply wellKeyed_set. Qed.

Lemma wellKeyed_addLocal m item :
  wellKeyed m -> wellKeyed (addLocal dateValue m item).
Proof.
  intros Hw. rewrite addLocal_cases.
  destruct (JsMap.get (id item) m) as [cur|].
  - destruct (newer dateValue item cur); [now apply wellKeyed_set | assumption].
  - now apply wellKeyed_set.
Qed.

Lemma wellKeyed_fold_addRemote remote m :
  wellKeyed m -> wellKeyed (fold_left addRemote remote m).
Proof.
  revert m. induction remote as [|r remote IH]; simpl; intros m Hw.
  - assumption.
  - apply IH. now apply wellKeyed_addRemote.
Qed.

Lemma wellKeyed_fold_addLocal local m :
  wellKeyed m -> wellKeyed (fold_left (addLocal dateValue) local m).
Proof.
  revert m. induction local as [|l local IH]; simpl; intros m Hw.
  - assumption.
  - apply IH. now apply wellKeyed_addLocal.
Qed.

(** The keys only grow, by the id of the item added. *)
Lemma in_keys_addLocal x m item :
  In x (JsMap.keys (addLocal dateValue m item)) <->
  In x (JsMap.keys m) \/ x = id item.
Proof.
  rewrite addLocal_cases.
  destruct (JsMap.get (id item) m) as [cur|] eqn:Hg.
  - destruct (newer dateValue item cur).
    + apply in_keys_set.
    + apply get_Some_key in Hg. split; [tauto | intros [?| ->]; assumption].
  - apply in_keys_set.
Qed.

Lemma in_keys_fold_addRemote x remote m :
  In x (JsMap.keys (fold_left addRemote remote m)) <->
  In x (JsMap.keys m) \/ In x (map id remote).
Proof.
  clear dateValue. revert m. induction remote as [|r remote IH]; simpl; intros m.
  - tauto.
  - rewrite IH. unfold addRemote. rewrite in_keys_set.
    intuition congruence.
Qed.

Lemma in_keys_fold_addLocal x local m :
  In x (JsMap.keys (fold_left (addLocal dateValue) local m)) <->
  In x (JsMap.keys m) \/ In x (map id local).
Proof.
  revert m. induction local as [|l local IH]; simpl; intros m.
  - tauto.
  - rewrite IH, in_keys_addLocal. intuition congruence.
Qed.

Lemma ids_values m : keyed m -> map id (JsMap.values m) = JsMap.keys m.
Proof.
  unfold keyed, JsMap.values, JsMap.keys. rewrite map_map.
  intros Hk. apply map_ext_in. intros p Hp.
  rewrite Forall_forall in Hk. now apply Hk.
Qed.

Lemma recordFor_values k m :
  keyed m -> recordFor k (JsMap.values m) = JsMap.get k m.
Proof.
  unfold recordFor. induction m as [|[k' v] m IH]; simpl; intros Hk.
  - reflexivity.
  - inversion Hk as [|? ? Hid Hk']; subst. simpl in Hid. rewrite Hid.
    rewrite String.eqb_sym.
    destruct (String.eqb k k'); [reflexivity | now apply IH].
Qed.

(** *** What the map holds for one id *)

Lemma get_addRemote_other k m item :
  id item <> k -> JsMap.get k (addRemote m item) = JsMap.get k m.
Proof. intros Hne. unfold addRemote. apply get_set_other. congruence. Qed.

Lemma get_addLocal_other k m item :
  id item <> k -> JsMap.get k (addLocal dateValue m item) = JsMap.get k m.
Proof.
  intros Hne. rewrite addLocal_cases.
  destruct (JsMap.get (id item) m) as [cur|].
  - destruct (newer dateValue item cur); [|reflexivity].
    apply get_set_other. congruence.
  - apply get_set_other. congruence.
Qed.

Lemma get_fold_addRemote_other k remote m :
  ~ In k (map id remote) ->
  JsMap.get k (fold_left addRemote remote m) = JsMap.get k m.
Proof.
  clear dateValue. revert m. induction remote as [|r remote IH]; simpl; intros m Hn.
  - reflexivity.
  - rewrite IH by tauto. apply get_addRemote_other. tauto.
Qed.

Lemma get_fold_addLocal_other k local m :
  ~ In k (map id local) ->
  JsMap.get k (fold_left (addLocal dateValue) local m) = JsMap.get k m.
Proof.
  revert m. induction local as [|l local IH]; simpl; intros m Hn.
  - reflexivity.
  - rewrite IH by tauto. apply get_addLocal_other. tauto.
Qed.

(** With distinct ids, the seeded map holds each remote record. *)
Lemma get_fold_addRemote_in r remote m :
  NoDup (map id remote) -> In r remote ->
  JsMap.get (id r) (fold_left addRemote remote m) = Some r.
Proof.
  clear dateValue. revert m. induction remote as [|r0 remote IH]; simpl; intros m Hnd Hi.
  - contradiction.
  - inversion Hnd as [|? ? Hnotin Hnd']; subst.
    destruct Hi as [->|Hi]; [|now apply IH].
    rewrite get_fold_addRemote_other by assumption.
    unfold addRemote. apply get_set_same.
Qed.

Lemma get_addLocal_same m item :
  JsMap.get (id item) (addLocal dateValue m item) =
  Some (outcome dateValue (JsMap.get (id item) m) item).
Proof.
  rewrite addLocal_cases. unfold outcome.
  destruct (JsMap.get (id item) m) as [cur|] eqn:Hg.
  - destruct (newer dateValue item cur); [apply get_set_same | exact Hg].
  - apply get_set_same.
Qed.

Lemma get_fold_addLocal_in l local m :
  NoDup (map id local) -> In l local ->
  JsMap.get (id l) (fold_left (addLocal dateValue) local m) =
  Some (outcome dateValue (JsMap.get (id l) m) l).
Proof.
  revert m. induction local as [|l0 local IH]; simpl; intros m Hnd Hi.
  - contradiction.
  - inversion Hnd as [|? ? Hnotin Hnd']; subst.
    destruct Hi as [->|Hi].
    + rewrite get_fold_addLocal_other by assumption.
      apply get_addLocal_same.
    + rewrite IH by assumption.
      rewrite get_addLocal_other; [reflexivity|].
      intros He. apply Hnotin. rewrite He. now apply in_map.
Qed.

End MergeFacts.

(* ================================================================== *)
(** ** mergeData: replaying the output against the same remote *)

Section MergeReplay.
Variable dateValue : string -> option Z.
Context {T : Type} `{Syncable T}.
Implicit Types (m : JsMap.t T) (item cur : T) (k : string).

Lemma dateGt_irrefl a : dateGt dateValue a a = false.
Proof.
  unfold dateGt. destruct (dateOf dateValue a); [|reflexivity].
  rewrite Z.gtb_ltb. apply Z.ltb_irrefl.
Qed.

Lemma dateGt_trans a b c :
  dateGt dateValue a b = true -> dateGt dateValue b c = true ->
  dateGt dateValue a c = true.
Proof.
  unfold dateGt.
  destruct (dateOf dateValue a), (dateOf dateValue b),
    (dateOf dateValue c); try discriminate.
  rewrite !Z.gtb_ltb, !Z.ltb_lt. lia.
Qed.

Lemma newer_irrefl item : newer dateValue item item = false.
Proof. unfold newer. rewrite dateGt_irrefl. apply andb_false_r. Qed.

Lemma newer_trans a b c :
  newer dateValue a b = true -> newer dateValue b c = true ->
  newer dateValue a c = true.
Proof.
  unfold newer. rewrite !andb_true_iff.
  intros [[Ha _] Hab] [[_ Hc] Hbc].
  repeat split; try assumption. eapply dateGt_trans; eassumption.
Qed.

Lemma settles_refl cur : settles dateValue cur cur.
Proof. now left. Qed.

Lemma settles_newer cur v item :
  settles dateValue cur v -> newer dateValue item v = true ->
  settles dateValue cur item.
Proof.
  intros [->|Hv] Hn; right; [assumption | eapply newer_trans; eassumption].
Qed.

Lemma refines_refl m : refines dateValue m m.
Proof.
  unfold refines. induction m; constructor; auto using settles_refl.
Qed.

(** Replacing a record by a newer one keeps the refinement. *)
Lemma refines_set m0 m1 item cur :
  refines dateValue m0 m1 ->
  JsMap.get (id item) m1 = Some cur ->
  newer dateValue item cur = true ->
  refines dateValue m0 (JsMap.set (id item) item m1).
Proof.
  unfold refines. induction 1 as [|[k0 v0] [k1 v1] m0 m1 [Hk Hs] Hrest IH];
    simpl; [discriminate|].
  simpl in Hk, Hs. intros Hg Hn.
  destruct (String.eqb_spec (id item) k1) as [He|Hne].
  - injection Hg as ->. constructor; [|assumption].
    simpl. split; [congruence | eapply settles_newer; eassumption].
  - constructor; [now split | now apply IH].
Qed.

(** One local item keeps the shape "refined seed, then new entries". *)
Lemma addLocal_shape m0 m1 extra item :
  refines dateValue m0 m1 ->
  exists m1' extra',
    addLocal dateValue (m1 ++ extra) item = m1' ++ extra' /\
    refines dateValue m0 m1'.
Proof.
  intros Hr. rewrite addLocal_cases.
  destruct (JsMap.get (id item) (m1 ++ extra)) as [cur|] eqn:Hg.
  - destruct (newer dateValue item cur) eqn:Hn; [|now exists m1, extra].
    destruct (in_dec string_dec (id item) (JsMap.keys m1)) as [Hi|Hni].
    + exists (JsMap.set (id item) item m1), extra.
      split; [now apply set_app_left|].
      destruct (JsMap.get (id item) m1) as [c|] eqn:Hg1.
      * rewrite (get_app_left _ _ _ extra Hg1) in Hg. injection Hg as ->.
        eapply refines_set; eassumption.
      * apply get_None_iff in Hg1. contradiction.
    + exists m1, (JsMap.set (id item) item extra).
      split; [now apply set_app_right | assumption].
  - apply get_None_iff in Hg. rewrite set_absent by assumption.
    exists m1, (extra ++ [(id item, item)]).
    split; [now rewrite app_assoc | assumption].
Qed.

Lemma fold_addLocal_shape local m0 m1 extra :
  refines dateValue m0 m1 ->
  exists m1' extra',
    fold_left (addLocal dateValue) local (m1 ++ extra) = m1' ++ extra' /\
    refines dateValue m0 m1'.
Proof.
  revert m1 extra. induction local as [|l local IH]; simpl; intros m1 extra Hr.
  - now exists m1, extra.
  - destruct (addLocal_shape m0 m1 extra l Hr)
      as (m1' & extra' & -> & Hr').
    now apply IH.
Qed.

(** Replaying the entries that were new: each one is appended again. *)
Lemma replay_extra extra done :
  wellKeyed (done ++ extra) ->
  fold_left (addLocal dateValue) (JsMap.values extra) done = done ++ extra.
Proof.
  revert done. induction extra as [|[k v] extra IH]; simpl; intros done Hw.
  - now rewrite app_nil_r.
  - assert (Hw' : wellKeyed ((done ++ [(k, v)]) ++ extra))
      by now rewrite <- app_assoc.
    destruct Hw as [Hnd Hk].
    assert (Hid : id v = k).
    { unfold keyed in Hk. rewrite Forall_forall in Hk.
      apply (Hk (k, v)). apply in_or_app. right. now left. }
    assert (Hnotin : ~ In k (JsMap.keys done)).
    { unfold JsMap.keys in Hnd. rewrite map_app in Hnd. simpl in Hnd.
      apply NoDup_remove_2 in Hnd. intros Hi. apply Hnd.
      apply in_or_app. now left. }
    rewrite addLocal_cases, Hid.
    destruct (JsMap.get k done) eqn:Hg;
      [apply get_Some_key in Hg; contradiction|].
    rewrite set_absent by assumption.
    rewrite IH by assumption. now rewrite <- app_assoc.
Qed.

(** Replaying the refined seed against the seed: each record is put back
    where it was. *)
Lemma replay_refined m0 m1 :
  refines dateValue m0 m1 ->
  forall done extra,
    wellKeyed (done ++ m1 ++ extra) ->
    fold_left (addLocal dateValue) (JsMap.values (m1 ++ extra)) (done ++ m0)
    = done ++ m1 ++ extra.
Proof.
  unfold refines.
  induction 1 as [|[k0 v0] [k1 v1] m0 m1 [Hk Hs] _ IH]; intros done extra Hw.
  - simpl. rewrite app_nil_r. now apply replay_extra.
  - simpl in Hk, Hs. subst k1. simpl.
    assert (Hw' : wellKeyed ((done ++ [(k0, v1)]) ++ m1 ++ extra))
      by now rewrite <- app_assoc.
    destruct Hw as [Hnd Hkd].
    assert (Hid : id v1 = k0).
    { unfold keyed in Hkd. rewrite Forall_forall in Hkd.
      apply (Hkd (k0, v1)). apply in_or_app. right. now left. }
    assert (Hnotin : ~ In k0 (JsMap.keys done)).
    { unfold JsMap.keys in Hnd. rewrite map_app in Hnd. simpl in Hnd.
      apply NoDup_remove_2 in Hnd. intros Hi. apply Hnd.
      apply in_or_app. now left. }
    assert (Hstep : addLocal dateValue (done ++ (k0, v0) :: m0) v1
                    = (done ++ [(k0, v1)]) ++ m0).
    { rewrite addLocal_cases, Hid.
      rewrite get_app_right by assumption. simpl.
      rewrite String.eqb_refl. rewrite <- app_assoc. simpl.
      destruct (newer dateValue v1 v0) eqn:Hn.
      - rewrite set_app_right by assumption. simpl.
        now rewrite String.eqb_refl.
      - destruct Hs as [->|Hs]; [reflexivity | congruence]. }
    rewrite Hstep, IH by assumption. now rewrite <- app_assoc.
Qed.

End MergeReplay.

(* ================================================================== *)
(** ** mergeData: the properties *)

Section MergeProperties.
Variable dateValue : string -> option Z.
Context {T : Type} `{Syncable T}.

Let seed (remote : list T) : JsMap.t T :=
  fold_left addRemote remote (JsMap.empty T).

Lemma wellKeyed_seed remote : wellKeyed (seed remote).
Proof. apply wellKeyed_fold_addRemote, wellKeyed_empty. Qed.

Lemma wellKeyed_merged local remote :
  wellKeyed (fold_left (addLocal dateValue) local (seed remote)).
Proof. apply wellKeyed_fold_addLocal, wellKeyed_seed. Qed.

Lemma recordFor_mergeData k local remote :
  recordFor k (mergeData dateValue local remote) =
  JsMap.get k (fold_left (addLocal dateValue) local (seed remote)).
Proof.
  unfold mergeData. apply recordFor_values, wellKeyed_merged.
Qed.

Lemma recordFor_in k (out : list T) v : recordFor k out = Some v -> In v out.
Proof. unfold recordFor. intros Hf. now apply find_some in Hf. Qed.

(** C4. For an id held by one local record [l] and one remote record [r]
    (ids are distinct within each input): when both carry [updatedAt],
    the merged record for the id is the one with the strictly later time
    value, and [r] on a tie; when a timestamp is not a valid date, or
    when either record has no [updatedAt], it is [r]. *)
Theorem mergeData_conflict_keeps_later (local remote : list T) (l r : T) :
  dateValue "" = None ->
  NoDup (map id local) -> NoDup (map id remote) ->
  In l local -> In r remote -> id l = id r ->
  let out := mergeData dateValue local remote in
  (forall a b x y,
      updatedAt l = Some a -> updatedAt r = Some b ->
      dateValue a = Some x -> dateValue b = Some y ->
      recordFor (id r) out = Some (if (x >? y)%Z then l else r)) /\
  (forall a b,
      updatedAt l = Some a -> updatedAt r = Some b ->
      dateValue a = None \/ dateValue b = None ->
      recordFor (id r) out = Some r) /\
  (updatedAt l = None \/ updatedAt r = None ->
   recordFor (id r) out = Some r).
Proof.
  intros Hempty Hndl Hndr Hl Hr Hid out.
  assert (Hout : recordFor (id r) out
                 = Some (if newer dateValue l r then l else r)).
  { unfold out. rewrite recordFor_mergeData, <- Hid.
    rewrite get_fold_addLocal_in by assumption.
    unfold seed. rewrite Hid, get_fold_addRemote_in by assumption.
    reflexivity. }
  rewrite Hout. unfold newer, dateGt, dateOf.
  split; [|split].
  - intros a b x y -> -> Hx Hy. rewrite Hx, Hy. simpl.
    destruct (String.eqb_spec a "") as [->|_]; [congruence|].
    destruct (String.eqb_spec b "") as [->|_]; [congruence|].
    reflexivity.
  - intros a b -> -> [Hx|Hy].
    + rewrite Hx. now rewrite andb_false_r.
    + rewrite Hy. destruct (dateValue a); now rewrite andb_false_r.
  - intros [->| ->]; simpl; [reflexivity | now rewrite andb_false_r].
Qed.

(** C5. The output of [mergeData] never holds two records with one id,
    and its ids are those of the local input together with those of the
    remote input. *)
Theorem mergeData_ids_distinct_and_union (local remote : list T) :
  NoDup (map id (mergeData dateValue local remote)) /\
  (forall k,
      In k (map id (mergeData dateValue local remote)) <->
      In k (map id local) \/ In k (map id remote)).
Proof.
  unfold mergeData. fold (seed remote).
  destruct (wellKeyed_merged local remote) as [Hnd Hk].
  rewrite (ids_values _ Hk). split; [exact Hnd|].
  intros k. rewrite in_keys_fold_addLocal. unfold seed.
  rewrite in_keys_fold_addRemote. simpl. tauto.
Qed.

(** C6. Merging the output of [mergeData] with the same remote input once
    more gives the same output, as a sequence. *)
Theorem mergeData_idempotent (local remote : list T) :
  mergeData dateValue (mergeData dateValue local remote) remote =
  mergeData dateValue local remote.
Proof.
  unfold mergeData. fold (seed remote).
  destruct (fold_addLocal_shape dateValue local (seed remote)
              (seed remote) [] (refines_refl dateValue (seed remote)))
    as (m1 & extra & Heq & Href).
  rewrite app_nil_r in Heq.
  pose proof (wellKeyed_merged local remote) as Hw. rewrite Heq in *.
  f_equal.
  apply (replay_refined dateValue _ _ Href [] extra Hw).
Qed.

(** C7. A record whose id occurs in one input only (ids are distinct
    within that input) is in the output as it is, and is the output's
    record for its id: so for a local-only and for a remote-only record. *)
Theorem mergeData_keeps_one_sided (local remote : list T) :
  (forall l,
      NoDup (map id local) -> In l local -> ~ In (id l) (map id remote) ->
      In l (mergeData dateValue local remote) /\
      recordFor (id l) (mergeData dateValue local remote) = Some l) /\
  (forall r,
      NoDup (map id remote) -> In r remote -> ~ In (id r) (map id local) ->
      In r (mergeData dateValue local remote) /\
      recordFor (id r) (mergeData dateValue local remote) = Some r).
Proof.
  split.
  - intros l Hnd Hl Hn.
    assert (Hrec : recordFor (id l) (mergeData dateValue local remote) = Some l).
    { rewrite recordFor_mergeData, get_fold_addLocal_in by assumption.
      unfold seed. rewrite get_fold_addRemote_other by assumption.
      reflexivity. }
    split; [eapply recordFor_in; eassumption | assumption].
  - intros r Hnd Hr Hn.
    assert (Hrec : recordFor (id r) (mergeData dateValue local remote) = Some r).
    { rewrite recordFor_mergeData, get_fold_addLocal_other by assumption.
      unfold seed. now apply get_fold_addRemote_in. }
    split; [eapply recordFor_in; eassumption | assumption].
Qed.

End MergeProperties.

(* ================================================================== *)
(** ** Queue replay *)

Section QueueReplay.
Variable Remote : Type.
Variable respond : Remote -> Request -> Settled * Remote.
Variable env : Env.
Implicit Types (w : World Remote) (a : QueuedAction.t).

Lemma unknownAction_requestOf a : unknownAction a -> requestOf a = None.
Proof.
  intros (Hc & Hu & Hd). unfold requestOf.
  destruct (String.eqb_spec (QueuedAction.action a) "create"); [contradiction|].
  destruct (String.eqb_spec (QueuedAction.action a) "update"); [contradiction|].
  destruct (String.eqb_spec (QueuedAction.action a) "delete"); [contradiction|].
  reflexivity.
Qed.

(** [processQueuedAction] sends the request of the action, if it has one,
    and throws exactly when the promise is rejected. *)
Lemma processQueuedAction_cases a w :
  processQueuedAction respond a w =
  match requestOf a with
  | None => (Normal tt, w)
  | Some req =>
      match respond (remote w) req with
      | (Fulfilled _, r') => (Normal tt, answered w req r')
      | (Rejected e, r') => (Throws e, answered w req r')
      end
  end.
Proof.
  unfold processQueuedAction, requestOf, await, send, bind, awaitSettled,
    answered.
  destruct (String.eqb (QueuedAction.action a) "create");
    [destruct (respond (remote w) _) as [[res|e] r']; reflexivity|].
  destruct (String.eqb (QueuedAction.action a) "update");
    [destruct (respond (remote w) _) as [[res|e] r']; reflexivity|].
  destruct (String.eqb (QueuedAction.action a) "delete");
    [destruct (respond (remote w) _) as [[res|e] r']; reflexivity|].
  reflexivity.
Qed.

(** One turn of the loop: the action is removed unless its promise was
    rejected, and the turn itself never throws. *)
Lemma processQueueStep_cases a w :
  processQueueStep respond a w =
  match requestOf a with
  | None =>
      (Normal tt,
       withStore w (queueStorage.remove (QueuedAction.id a) (store w)))
  | Some req =>
      match respond (remote w) req with
      | (Fulfilled _, r') =>
          (Normal tt,
           withStore (answered w req r')
             (queueStorage.remove (QueuedAction.id a) (store w)))
      | (Rejected _, r') => (Normal tt, answered w req r')
      end
  end.
Proof.
  unfold processQueueStep, tryCatch, bind.
  rewrite processQueuedAction_cases.
  destruct (requestOf a) as [req|]; [|reflexivity].
  destruct (respond (remote w) req) as [[res|e] r']; reflexivity.
Qed.

Lemma processQueueStep_normal a w :
  fst (processQueueStep respond a w) = Normal tt.
Proof.
  rewrite processQueueStep_cases.
  destruct (requestOf a) as [req|]; [|reflexivity].
  destruct (respond (remote w) req) as [[res|e] r']; reflexivity.
Qed.

Lemma forOf_cons a q w :
  forOf (a :: q) (processQueueStep respond) w =
  forOf q (processQueueStep respond) (snd (processQueueStep respond a w)).
Proof.
  simpl. unfold bind. pose proof (processQueueStep_normal a w) as Hn.
  destruct (processQueueStep respond a w) as [c w']. simpl in *.
  now rewrite Hn.
Qed.

Lemma processQueueStep_sent a w :
  sent (snd (processQueueStep respond a w)) = sent w ++ requestsOf [a].
Proof.
  rewrite processQueueStep_cases. unfold requestsOf. simpl.
  destruct (requestOf a) as [req|]; simpl; [|now rewrite app_nil_r].
  destruct (respond (remote w) req) as [[res|e] r']; reflexivity.
Qed.

(** A turn leaves the local store as it is or removes its action. *)
Lemma processQueueStep_store a w :
  store (snd (processQueueStep respond a w)) = store w \/
  store (snd (processQueueStep respond a w)) =
    queueStorage.remove (QueuedAction.id a) (store w).
Proof.
  rewrite processQueueStep_cases.
  destruct (requestOf a) as [req|]; [|now right].
  destruct (respond (remote w) req) as [[res|e] r']; [now right | now left].
Qed.

Lemma in_queue_remove x k (s : Store) :
  In x (queue (queueStorage.remove k s)) <->
  In x (queue s) /\ QueuedAction.id x <> k.
Proof.
  unfold queueStorage.remove. simpl. rewrite filter_In, negb_true_iff.
  destruct (String.eqb_spec (QueuedAction.id x) k); intuition congruence.
Qed.

Lemma processQueueStep_queue_shrinks a w x :
  In x (queue (store (snd (processQueueStep respond a w)))) ->
  In x (queue (store w)).
Proof.
  destruct (processQueueStep_store a w) as [-> | ->]; [tauto|].
  rewrite in_queue_remove. tauto.
Qed.

Lemma forOf_normal q w :
  fst (forOf q (processQueueStep respond) w) = Normal tt.
Proof.
  revert w. induction q as [|a q IH]; intros w; [reflexivity|].
  rewrite forOf_cons. apply IH.
Qed.

Lemma forOf_sent q w :
  sent (snd (forOf q (processQueueStep respond) w)) = sent w ++ requestsOf q.
Proof.
  revert w. induction q as [|a q IH]; intros w.
  - simpl. now rewrite app_nil_r.
  - rewrite forOf_cons, IH, processQueueStep_sent.
    unfold requestsOf. simpl. now rewrite app_nil_r, app_assoc.
Qed.

Lemma forOf_queue_shrinks q w x :
  In x (queue (store (snd (forOf q (processQueueStep respond) w)))) ->
  In x (queue (store w)).
Proof.
  revert w. induction q as [|a q IH]; intros w; [simpl; tauto|].
  rewrite forOf_cons. intros Hx.
  eapply processQueueStep_queue_shrinks, IH, Hx.
Qed.

(** The collections and the flag are not touched by the replay. *)
Lemma processQueueStep_frame a w :
  let s' := store (snd (processQueueStep respond a w)) in
  medicines s' = medicines (store w) /\ sales s' = sales (store w) /\
  refunds s' = refunds (store w) /\ expenses s' = expenses (store w) /\
  offline s' = offline (store w).
Proof.
  destruct (processQueueStep_store a w) as [-> | ->]; simpl; tauto.
Qed.

Lemma forOf_frame q w :
  let s' := store (snd (forOf q (processQueueStep respond) w)) in
  medicines s' = medicines (store w) /\ sales s' = sales (store w) /\
  refunds s' = refunds (store w) /\ expenses s' = expenses (store w) /\
  offline s' = offline (store w).
Proof.
  revert w. induction q as [|a q IH]; intros w; [simpl; tauto|].
  rewrite forOf_cons. simpl.
  destruct (IH (snd (processQueueStep respond a w))) as (-> & -> & -> & -> & ->).
  apply processQueueStep_frame.
Qed.

(** An action without a request is gone after the pass. *)
Lemma forOf_removes_requestless q w a x :
  In a q -> requestOf a = None ->
  In x (queue (store (snd (forOf q (processQueueStep respond) w)))) ->
  QueuedAction.id x <> QueuedAction.id a.
Proof.
  revert w. induction q as [|b q IH]; intros w Hin Hreq; [contradiction|].
  rewrite forOf_cons. destruct Hin as [->|Hin]; [|now apply IH].
  intros Hx. apply forOf_queue_shrinks in Hx.
  rewrite processQueueStep_cases, Hreq in Hx. simpl in Hx.
  now apply in_queue_remove in Hx.
Qed.

Lemma processQueue_configured w :
  isSupabaseConfigured env = true ->
  processQueue respond env w =
  forOf (queue (store w)) (processQueueStep respond) w.
Proof. intros Hc. unfold processQueue. rewrite Hc. reflexivity. Qed.

Lemma processQueue_normal w : fst (processQueue respond env w) = Normal tt.
Proof.
  unfold processQueue.
  destruct (isSupabaseConfigured env); [|reflexivity].
  apply forOf_normal.
Qed.

(** C3. When the gateway is configured, a pass of [processQueue] sends
    the requests of the queued actions one after the other in the order
    of the queue, whatever the remote store answers to each: a rejected
    request does not stop the requests of the actions behind it, and the
    pass returns normally. *)
Theorem processQueue_attempts_every_action_in_order w :
  isSupabaseConfigured env = true ->
  fst (processQueue respond env w) = Normal tt /\
  sent (snd (processQueue respond env w)) =
    sent w ++ requestsOf (queue (store w)).
Proof.
  intros Hc. split; [apply processQueue_normal|].
  rewrite processQueue_configured by assumption. apply forOf_sent.
Qed.

(** C10. A queued action whose [action] is none of create, update and
    delete: [processQueuedAction] returns normally and leaves the world as
    it is, so nothing is sent; and after a pass of [processQueue] (gateway
    configured) no action with its id is queued, the requests sent being
    those of the queue, none of them for this action. *)
Theorem processQueue_drops_unknown_action a w :
  unknownAction a ->
  processQueuedAction respond a w = (Normal tt, w) /\
  requestOf a = None /\
  (isSupabaseConfigured env = true -> In a (queue (store w)) ->
   let w' := snd (processQueue respond env w) in
   (forall x, In x (queue (store w')) ->
              QueuedAction.id x <> QueuedAction.id a) /\
   sent w' = sent w ++ requestsOf (queue (store w))).
Proof.
  intros Hu. pose proof (unknownAction_requestOf a Hu) as Hreq.
  split; [|split].
  - now rewrite processQueuedAction_cases, Hreq.
  - exact Hreq.
  - intros Hc Hin w'. unfold w'.
    rewrite processQueue_configured by assumption. split.
    + intros x. now apply forOf_removes_requestless.
    + apply forOf_sent.
Qed.

End QueueReplay.

(* ================================================================== *)
(** ** Full synchronisation *)

Section FullSync.
Variable dateValue : string -> option Z.
Variable Remote : Type.
Variable respond : Remote -> Request -> Settled * Remote.
Variable env : Env.
Implicit Types (w : World Remote).

Lemma processQueue_frame w :
  let s' := store (snd (processQueue respond env w)) in
  medicines s' = medicines (store w) /\ sales s' = sales (store w) /\
  refunds s' = refunds (store w) /\ expenses s' = expenses (store w) /\
  offline s' = offline (store w).
Proof.
  unfold processQueue.
  destruct (isSupabaseConfigured env); [|simpl; tauto].
  apply forOf_frame.
Qed.

(** When one of the four promises is rejected, [fullSync] throws the
    error of a rejected one, the flag is set to offline, and neither a
    collection nor the queue has changed. *)
Lemma fullSync_rejected_fetch_aborts w p1 r1 p2 r2 p3 r3 p4 r4 :
  isSupabaseConfigured env = true ->
  respond (remote w) (Select "medicines") = (p1, r1) ->
  respond r1 (Select "sales") = (p2, r2) ->
  respond r2 (Select "refunds") = (p3, r3) ->
  respond r3 (Select "expenses") = (p4, r4) ->
  (exists e, In (Rejected e) [p1; p2; p3; p4]) ->
  exists e,
    In (Rejected e) [p1; p2; p3; p4] /\
    fullSync dateValue respond env w =
    (Throws e,
     {| store := offlineStorage.setOffline true (store w);
        remote := r4;
        sent := sent w ++ selects |}).
Proof.
  intros Hc H1 H2 H3 H4 Hrej.
  unfold fullSync, tryCatch, bind, send, promiseAll4. rewrite Hc. simpl.
  rewrite H1. simpl. rewrite H2. simpl. rewrite H3. simpl. rewrite H4.
  unfold selects. simpl. rewrite <- !app_assoc. simpl.
  destruct p1 as [x1|e1]; simpl;
    [|exists e1; split; [now left | reflexivity]].
  destruct p2 as [x2|e2]; simpl;
    [|exists e2; split; [right; now left | reflexivity]].
  destruct p3 as [x3|e3]; simpl;
    [|exists e3; split; [right; right; now left | reflexivity]].
  destruct p4 as [x4|e4]; simpl;
    [|exists e4; split; [right; right; right; now left | reflexivity]].
  exfalso. destruct Hrej as (e & Hin). simpl in Hin.
  repeat (destruct Hin as [Hin|Hin]; [discriminate|]). exact Hin.
Qed.

(** When the four promises are fulfilled, [fullSync] returns normally
    with the flag set to online, each collection merged with the rows its
    result carries, if it carries any. *)
Lemma fullSync_fulfilled_goes_online w x1 r1 x2 r2 x3 r3 x4 r4 :
  isSupabaseConfigured env = true ->
  respond (remote w) (Select "medicines") = (Fulfilled x1, r1) ->
  respond r1 (Select "sales") = (Fulfilled x2, r2) ->
  respond r2 (Select "refunds") = (Fulfilled x3, r3) ->
  respond r3 (Select "expenses") = (Fulfilled x4, r4) ->
  let res := fullSync dateValue respond env w in
  fst res = Normal tt /\
  offline (store (snd res)) = false /\
  medicines (store (snd res)) = mergedWith dateValue (medicines (store w)) x1 /\
  sales (store (snd res)) = mergedWith dateValue (sales (store w)) x2 /\
  refunds (store (snd res)) = mergedWith dateValue (refunds (store w)) x3 /\
  expenses (store (snd res)) = mergedWith dateValue (expenses (store w)) x4.
Proof.
  intros Hc H1 H2 H3 H4.
  unfold fullSync, tryCatch, bind, send, promiseAll4. rewrite Hc. simpl.
  rewrite H1. simpl. rewrite H2. simpl. rewrite H3. simpl. rewrite H4.
  simpl. unfold mergeInto, mergedWith, bind, gets, modify, ret.
  destruct (data x1), (data x2), (data x3), (data x4); simpl;
    match goal with
    | |- context [processQueue respond env ?w0] =>
        pose proof (processQueue_normal Remote respond env w0) as Hn;
        pose proof (processQueue_frame w0) as Hf;
        destruct (processQueue respond env w0) as [c w5];
        simpl in Hn, Hf; subst c; simpl;
        destruct Hf as (-> & -> & -> & -> & _); simpl; repeat split
    end.
Qed.

(** C8. When the gateway is not configured, [fullSync] returns normally
    and leaves the world as it is: no request is sent, the four
    collections, the queue and the connectivity flag are unchanged.  The
    same holds of [processQueue] and of the four upsert helpers. *)
Theorem not_configured_is_a_noop w :
  isSupabaseConfigured env = false ->
  fullSync dateValue respond env w = (Normal tt, w) /\
  processQueue respond env w = (Normal tt, w) /\
  syncMedicines respond env w = (Normal tt, w) /\
  syncSales respond env w = (Normal tt, w) /\
  syncRefunds respond env w = (Normal tt, w) /\
  syncExpenses respond env w = (Normal tt, w).
Proof.
  intros Hc.
  unfold fullSync, processQueue, syncMedicines, syncSales, syncRefunds,
    syncExpenses.
  rewrite Hc. simpl. repeat split.
Qed.

End FullSync.

(* ================================================================== *)
(** ** The audit log is bounded *)

Module AuditLogFacts.
Import auditLogStorage.

Lemma mostRecent_short n logs :
  (List.length logs <= n)%nat -> mostRecent n logs = logs.
Proof.
  intros Hle. unfold mostRecent.
  replace (List.length logs - n)%nat with 0%nat by lia. apply skipn_0.
Qed.

Lemma length_mostRecent n logs :
  (List.length (mostRecent n logs) <= n)%nat.
Proof. unfold mostRecent. rewrite length_skipn. lia. Qed.

Lemma length_mostRecent_exact n logs :
  (n <= List.length logs)%nat -> List.length (mostRecent n logs) = n.
Proof. intros Hle. unfold mostRecent. rewrite length_skipn. lia. Qed.

(** An accepted [add] stores the most recent 1000 of the old entries
    followed by the new one. *)
Lemma getAll_add_accepted e item :
  getAll (add e true item) = mostRecent 1000 (getAll item ++ [e]).
Proof.
  unfold add. simpl.
  destruct (Nat.ltb_spec 1000 (List.length (getAll item ++ [e]))) as [Hlt|Hle].
  - reflexivity.
  - now rewrite mostRecent_short.
Qed.

Lemma add_bounded e ok item :
  (List.length (getAll item) <= 1000)%nat ->
  (List.length (getAll (add e ok item)) <= 1000)%nat.
Proof.
  intros Hle. destruct ok.
  - rewrite getAll_add_accepted. apply length_mostRecent.
  - exact Hle.
Qed.

Lemma addAll_bounded calls item :
  (List.length (getAll item) <= 1000)%nat ->
  (List.length (getAll (addAll calls item)) <= 1000)%nat.
Proof.
  unfold addAll. revert item.
  induction calls as [|[e ok] calls IH]; simpl; intros item Hle.
  - exact Hle.
  - apply IH. now apply add_bounded.
Qed.

(** Trimming before the next entry arrives changes nothing. *)
Lemma mostRecent_snoc n logs e :
  mostRecent n (mostRecent n logs ++ [e]) = mostRecent n (logs ++ [e]).
Proof.
  destruct (Nat.le_gt_cases (List.length logs) n) as [Hle|Hgt].
  - now rewrite (mostRecent_short n logs Hle).
  - unfold mostRecent at 1 3.
    rewrite !length_app, length_mostRecent_exact by lia. simpl.
    unfold mostRecent.
    replace (List.length logs + 1 - n)%nat
      with ((n + 1 - n) + (List.length logs - n))%nat by lia.
    rewrite <- skipn_skipn. f_equal.
    rewrite skipn_app.
    replace (List.length logs - n - List.length logs)%nat with 0%nat by lia.
    reflexivity.
Qed.

(** After a run of accepted [add] calls the log holds the most recent
    1000 of all the entries. *)
Lemma getAll_addAll_written logs item :
  (List.length (getAll item) <= 1000)%nat ->
  getAll (addAll (written logs) item) = mostRecent 1000 (getAll item ++ logs).
Proof.
  intros Hle. induction logs as [|e logs IH] using rev_ind.
  - simpl. rewrite app_nil_r. now rewrite mostRecent_short.
  - assert (Hsnoc : addAll (written (logs ++ [e])) item
                    = add e true (addAll (written logs) item)).
    { unfold written, addAll. now rewrite map_app, fold_left_app. }
    rewrite Hsnoc, getAll_add_accepted, IH, mostRecent_snoc.
    now rewrite app_assoc.
Qed.

(** C9. Starting from a log of at most 1000 entries (an empty or cleared
    one in particular), no run of [add] calls leaves more than 1000
    entries, whether the writes are accepted or not.  An accepted [add]
    stores the old entries followed by the new one, cut at the front to
    the most recent 1000.  After 1001 accepted [add] calls on an empty
    log, [getAll] returns the entries from the second on: the second is
    the oldest, and the first is not among them (entries distinct). *)
Theorem auditLog_keeps_most_recent_1000 :
  (forall calls item,
      (List.length (getAll item) <= 1000)%nat ->
      (List.length (getAll (addAll calls item)) <= 1000)%nat) /\
  (forall calls item,
      (List.length (getAll (addAll calls (clear item))) <= 1000)%nat) /\
  (forall e item,
      getAll (add e true item) = mostRecent 1000 (getAll item ++ [e])) /\
  (forall e1 e2 rest,
      List.length rest = 999%nat ->
      let logs := getAll (addAll (written (e1 :: e2 :: rest)) Absent) in
      logs = e2 :: rest /\
      hd_error logs = Some e2 /\
      (NoDup (e1 :: e2 :: rest) -> ~ In e1 logs)).
Proof.
  split; [|split; [|split]].
  - intros calls item. apply addAll_bounded.
  - intros calls item. apply addAll_bounded. simpl. lia.
  - apply getAll_add_accepted.
  - intros e1 e2 rest Hlen logs.
    assert (Hlogs : logs = e2 :: rest).
    { unfold logs. rewrite getAll_addAll_written by (simpl; lia).
      unfold mostRecent. simpl List.length. rewrite Hlen. reflexivity. }
    rewrite Hlogs. split; [reflexivity | split; [reflexivity|]].
    intros Hnd. now inversion Hnd.
Qed.

End AuditLogFacts.

(* ================================================================== *)
(** ** The properties on the sample data *)

Local Ltac distinct := repeat constructor; simpl; intuition discriminate.

Lemma mergeData_conflict_keeps_later_witness :
  Sample.dates "" = None /\
  recordFor "m1" (mergeData Sample.dates Sample.localRows Sample.remoteRows)
  = Some Sample.m1Local.
Proof.
  split; [reflexivity|].
  refine (proj1 (mergeData_conflict_keeps_later Sample.dates
                   Sample.localRows Sample.remoteRows
                   Sample.m1Local Sample.m1Remote _ _ _ _ _ _)
            "2024-01-02T00:00:00Z" "2024-01-01T00:00:00Z"
            1704153600000%Z 1704067200000%Z
            eq_refl eq_refl eq_refl eq_refl).
  - reflexivity.
  - distinct.
  - distinct.
  - simpl; auto.
  - simpl; auto.
  - reflexivity.
Defined.

Lemma mergeData_keeps_one_sided_witness :
  In Sample.m2Local
     (mergeData Sample.dates Sample.localRows Sample.remoteRows) /\
  In Sample.m3Remote
     (mergeData Sample.dates Sample.localRows Sample.remoteRows).
Proof.
  pose proof (mergeData_keeps_one_sided Sample.dates
                Sample.localRows Sample.remoteRows) as [Hlocal Hremote].
  split.
  - apply (Hlocal Sample.m2Local); [distinct | simpl; auto | distinct].
  - apply (Hremote Sample.m3Remote); [distinct | simpl; auto | distinct].
Defined.

Lemma processQueue_attempts_every_action_in_order_witness :
  isSupabaseConfigured Sample.configured = true /\
  sent (snd (processQueue Sample.rejecting Sample.configured
               (Sample.world Sample.pendingStore)))
  = [Delete "sales" "s1"; Update "medicines" Sample.m1Local "m1"].
Proof.
  split; [reflexivity|].
  apply (processQueue_attempts_every_action_in_order unit Sample.rejecting
           Sample.configured (Sample.world Sample.pendingStore)).
  reflexivity.
Defined.

Lemma processQueue_drops_unknown_action_witness :
  unknownAction Sample.archiveS1 /\
  forall x,
    In x (queue (store (snd (processQueue Sample.accepting Sample.configured
                               (Sample.world Sample.mixedStore))))) ->
    QueuedAction.id x <> "q2".
Proof.
  assert (Hu : unknownAction Sample.archiveS1)
    by (repeat split; discriminate).
  split; [exact Hu|].
  apply (proj2 (proj2 (processQueue_drops_unknown_action unit Sample.accepting
                         Sample.configured Sample.archiveS1
                         (Sample.world Sample.mixedStore) Hu))).
  - reflexivity.
  - simpl; auto.
Defined.

Lemma not_configured_is_a_noop_witness :
  isSupabaseConfigured Sample.notConfigured = false /\
  fullSync Sample.dates Sample.accepting Sample.notConfigured
    (Sample.world Sample.localStore)
  = (Normal tt, Sample.world Sample.localStore).
Proof.
  split; [reflexivity|].
  apply (not_configured_is_a_noop Sample.dates unit Sample.accepting
           Sample.notConfigured (Sample.world Sample.localStore)).
  reflexivity.
Defined.

Lemma auditLog_keeps_most_recent_1000_witness :
  auditLogStorage.getAll
    (auditLogStorage.addAll
       (auditLogStorage.written
          (Sample.logEntry 1 :: Sample.logEntry 2
             :: map Sample.logEntry (seq 3 999)))
       auditLogStorage.Absent)
  = Sample.logEntry 2 :: map Sample.logEntry (seq 3 999).
Proof.
  apply (proj2 (proj2 (proj2 AuditLogFacts.auditLog_keeps_most_recent_1000))
           (Sample.logEntry 1) (Sample.logEntry 2)
           (map Sample.logEntry (seq 3 999))).
  now rewrite length_map, length_seq.
Defined.

(** C2, on the code: a queued delete whose request the remote store
    answers with an error in the result (the promise is fulfilled, not
    rejected) is removed from the queue by [processQueue]. *)
Theorem processQueue_removes_action_refused_in_result :
  let w := Sample.world Sample.localStore in
  let w' := snd (processQueue Sample.refusing Sample.configured w) in
  queue (store w) = [Sample.deleteS1] /\
  sent w' = [Delete "sales" "s1"] /\
  fst (Sample.refusing tt (Delete "sales" "s1")) = Fulfilled Sample.refused /\
  error Sample.refused = Some "permission denied" /\
  queue (store w') = [].
Proof. vm_compute. repeat split. Qed.

(** C1, on the code: when the fetch of the medicines is answered with an
    error in the result (the promise is fulfilled, not rejected),
    [fullSync] returns normally, sets the flag to online, and has merged
    and saved the sales. *)
Theorem fullSync_goes_online_when_a_fetch_is_refused_in_result :
  let w := Sample.world Sample.localStore in
  let res := fullSync Sample.dates Sample.medicinesRefused Sample.configured w in
  fst (Sample.medicinesRefused tt (Select "medicines"))
  = Fulfilled Sample.refused /\
  error Sample.refused = Some "permission denied" /\
  fst res = Normal tt /\
  offline (store w) = true /\
  offline (store (snd res)) = false /\
  medicines (store (snd res)) = medicines (store w) /\
  sales (store (snd res))
  = mergeData Sample.dates Sample.localRows Sample.remoteRows /\
  sales (store (snd res)) <> sales (store w).
Proof. vm_compute. repeat split. discriminate. Qed.

(* ================================================================== *)
(** ** mergeData: order, provenance and degenerate inputs *)

Section MergeMore.
Variable dateValue : string -> option Z.
Context {T : Type} `{Syncable T}.
Implicit Types (m : JsMap.t T) (item : T) (k : string).

Lemma keys_keyedList (l : list T) : JsMap.keys (keyedList l) = map id l.
Proof. unfold JsMap.keys, keyedList. rewrite map_map. reflexivity. Qed.

Lemma values_keyedList (l : list T) : JsMap.values (keyedList l) = l.
Proof. unfold JsMap.values, keyedList. rewrite map_map. apply map_id. Qed.

Lemma wellKeyed_keyedList (l : list T) :
  NoDup (map id l) -> wellKeyed (keyedList l).
Proof.
  intros Hnd. split.
  - now rewrite keys_keyedList.
  - unfold keyed, keyedList. rewrite Forall_forall. intros p Hp.
    apply in_map_iff in Hp. destruct Hp as (x & <- & _). reflexivity.
Qed.

Lemma fresh_after_append (x a : T) (rest : list T) m :
  NoDup (map id (a :: rest)) -> In x rest ->
  ~ In (id x) (JsMap.keys m) ->
  ~ In (id x) (JsMap.keys (m ++ [(id a, a)])).
Proof.
  intros Hnd Hx Hm. unfold JsMap.keys in *. rewrite map_app, in_app_iff. simpl.
  inversion Hnd as [|? ? Hnotin _]; subst.
  intros [Hi|[He|[]]]; [contradiction|].
  apply Hnotin. rewrite He. now apply in_map.
Qed.

(** Records with new, distinct ids are appended in their order. *)
Lemma fold_addRemote_fresh (remote : list T) m :
  NoDup (map id remote) ->
  (forall x, In x remote -> ~ In (id x) (JsMap.keys m)) ->
  fold_left addRemote remote m = m ++ keyedList remote.
Proof.
  clear dateValue. revert m.
  induction remote as [|a remote IH]; simpl; intros m Hnd Hfresh.
  - now rewrite app_nil_r.
  - unfold addRemote at 2. rewrite set_absent by (apply Hfresh; now left).
    rewrite IH.
    + now rewrite <- app_assoc.
    + now inversion Hnd.
    + intros x Hx. eapply fresh_after_append; eauto.
Qed.

Lemma fold_addLocal_fresh (local : list T) m :
  NoDup (map id local) ->
  (forall x, In x local -> ~ In (id x) (JsMap.keys m)) ->
  fold_left (addLocal dateValue) local m = m ++ keyedList local.
Proof.
  revert m. induction local as [|a local IH]; simpl; intros m Hnd Hfresh.
  - now rewrite app_nil_r.
  - assert (Ha : ~ In (id a) (JsMap.keys m)) by (apply Hfresh; now left).
    rewrite addLocal_cases.
    destruct (JsMap.get (id a) m) eqn:Hg;
      [apply get_Some_key in Hg; contradiction|].
    rewrite set_absent by assumption.
    rewrite IH.
    + now rewrite <- app_assoc.
    + now inversion Hnd.
    + intros x Hx. eapply fresh_after_append; eauto.
Qed.

Lemma seed_distinct (remote : list T) :
  NoDup (map id remote) ->
  fold_left addRemote remote (JsMap.empty T) = keyedList remote.
Proof.
  intros Hnd. rewrite fold_addRemote_fresh; [reflexivity | assumption |].
  intros x _ [].
Qed.

(** X1. With an empty remote snapshot the merge returns the local records
    as they are and in their order, and with an empty local snapshot it
    returns the remote records as they are and in their order (ids distinct
    within the snapshot). *)
Theorem mergeData_empty_side :
  (forall local : list T,
      NoDup (map id local) -> mergeData dateValue local [] = local) /\
  (forall remote : list T,
      NoDup (map id remote) -> mergeData dateValue [] remote = remote).
Proof.
  split.
  - intros local Hnd. unfold mergeData. simpl.
    rewrite fold_addLocal_fresh; [apply values_keyedList | assumption |].
    intros x _ [].
  - intros remote Hnd. unfold mergeData. simpl.
    rewrite seed_distinct by assumption. apply values_keyedList.
Qed.

(** X2. Merging a snapshot with itself gives the snapshot back, in the
    same order (ids distinct). *)
Theorem mergeData_same_snapshot (rows : list T) :
  NoDup (map id rows) -> mergeData dateValue rows rows = rows.
Proof.
  intros Hnd. unfold mergeData. rewrite seed_distinct by assumption.
  pose proof (replay_refined dateValue (keyedList rows) (keyedList rows)
                (refines_refl dateValue (keyedList rows)) [] []) as Hreplay.
  simpl in Hreplay. rewrite app_nil_r in Hreplay.
  rewrite values_keyedList in Hreplay.
  rewrite Hreplay; [apply values_keyedList | now apply wellKeyed_keyedList].
Qed.

Lemma fold_set_provenance (Q : T -> Prop)
    (step : JsMap.t T -> T -> JsMap.t T) (items : list T) m :
  (forall m' item, step m' item = m' \/
                   step m' item = JsMap.set (id item) item m') ->
  (forall x, In x items -> Q x) ->
  (forall p, In p m -> Q (snd p)) ->
  forall p, In p (fold_left step items m) -> Q (snd p).
Proof.
  clear dateValue. intros Hstep. revert m.
  induction items as [|a items IH]; simpl; intros m Hitems Hm p Hp.
  - now apply Hm.
  - apply (IH (step m a)); [intros x Hx; apply Hitems; now right | | exact Hp].
    intros q Hq. destruct (Hstep m a) as [He|He]; rewrite He in Hq;
      [now apply Hm|].
    apply in_set_inv in Hq. destruct Hq as [-> | Hq]; [|now apply Hm].
    simpl. apply Hitems. now left.
Qed.

Lemma addLocal_set_or_same m item :
  addLocal dateValue m item = m \/
  addLocal dateValue m item = JsMap.set (id item) item m.
Proof.
  rewrite addLocal_cases. destruct (JsMap.get (id item) m) as [cur|];
    [destruct (newer dateValue item cur)|]; auto.
Qed.

(** X3. Every record of the output is a record of the local input or of
    the remote input: the merge builds no record of its own. *)
Theorem mergeData_records_from_inputs (local remote : list T) (x : T) :
  In x (mergeData dateValue local remote) -> In x local \/ In x remote.
Proof.
  unfold mergeData, JsMap.values. intros Hx.
  apply in_map_iff in Hx. destruct Hx as (p & <- & Hp).
  revert p Hp.
  apply (fold_set_provenance (fun x => In x local \/ In x remote)
           (addLocal dateValue)).
  - apply addLocal_set_or_same.
  - intros y Hy. now left.
  - apply (fold_set_provenance (fun x => In x local \/ In x remote) addRemote).
    + intros m' item. now right.
    + intros y Hy. now right.
    + intros p [].
Qed.

Lemma refines_same_keys m0 m1 :
  refines dateValue m0 m1 -> JsMap.keys m1 = JsMap.keys m0.
Proof.
  unfold refines. induction 1 as [|p0 p1 ? ? [Hk _] _ IH]; simpl.
  - reflexivity.
  - now rewrite Hk, IH.
Qed.

Lemma NoDup_app_disjoint (l1 l2 : list string) k :
  NoDup (l1 ++ l2) -> In k l1 -> In k l2 -> False.
Proof.
  clear dateValue. induction l1 as [|a l1 IH]; simpl; [tauto|].
  intros Hnd [->|Hin] Hk; inversion Hnd as [|? ? Hnotin Hnd']; subst.
  - apply Hnotin. apply in_or_app. now right.
  - now apply IH.
Qed.

(** X4. The output lists the remote records' ids first, in the order of
    the remote input (ids distinct there); the ids that follow are ids of
    local records that the remote input does not have. *)
Theorem mergeData_remote_ids_first (local remote : list T) :
  NoDup (map id remote) ->
  exists news,
    map id (mergeData dateValue local remote) = map id remote ++ news /\
    (forall k, In k news ->
               In k (map id local) /\ ~ In k (map id remote)).
Proof.
  intros Hnd. unfold mergeData. rewrite seed_distinct by assumption.
  set (M := fold_left (addLocal dateValue) local (keyedList remote)).
  assert (Hw : wellKeyed M)
    by (apply wellKeyed_fold_addLocal; now apply wellKeyed_keyedList).
  assert (Hkeys : forall k, In k (JsMap.keys M) <->
                            In k (map id remote) \/ In k (map id local)).
  { intros k. unfold M. rewrite in_keys_fold_addLocal, keys_keyedList.
    tauto. }
  destruct (fold_addLocal_shape dateValue local (keyedList remote)
              (keyedList remote) [] (refines_refl dateValue (keyedList remote)))
    as (m1 & extra & Heq & Href).
  rewrite app_nil_r in Heq. fold M in Heq.
  apply refines_same_keys in Href. rewrite keys_keyedList in Href.
  destruct Hw as [Hnodup Hkeyed].
  assert (Hsplit : JsMap.keys M = map id remote ++ JsMap.keys extra).
  { rewrite Heq. unfold JsMap.keys in *. now rewrite map_app, Href. }
  exists (JsMap.keys extra). rewrite (ids_values _ Hkeyed).
  split; [exact Hsplit|].
  intros k Hk. rewrite Hsplit in Hnodup.
  assert (Hnot : ~ In k (map id remote))
    by (intros Hin; eapply NoDup_app_disjoint; eauto).
  split; [|assumption].
  destruct (proj1 (Hkeys k)) as [Hin|Hin]; [|contradiction|assumption].
  rewrite Hsplit. apply in_or_app. now right.
Qed.

Lemma find_app_first (f : T -> bool) (l1 l2 : list T) :
  find f (l1 ++ l2) =
  match find f l1 with
  | Some x => Some x
  | None => find f l2
  end.
Proof.
  clear dateValue. induction l1 as [|a l1 IH]; simpl; [reflexivity|].
  destruct (f a); [reflexivity | exact IH].
Qed.

Lemma get_fold_addRemote k (remote : list T) m :
  JsMap.get k (fold_left addRemote remote m) =
  match find (fun x => String.eqb (id x) k) (rev remote) with
  | Some x => Some x
  | None => JsMap.get k m
  end.
Proof.
  clear dateValue. revert m.
  induction remote as [|a remote IH]; simpl; intros m; [reflexivity|].
  rewrite IH, find_app_first.
  destruct (find (fun x => String.eqb (id x) k) (rev remote));
    [reflexivity|].
  simpl. unfold addRemote.
  destruct (String.eqb_spec (id a) k) as [<-|Hne].
  - apply get_set_same.
  - apply get_set_other. congruence.
Qed.

(** X5. When the remote input holds several records with one id, the last
    of them is the one the merge works with: for an id no local record
    has, the output's record is the last remote record with that id. *)
Theorem mergeData_last_remote_duplicate_wins (local remote : list T) k :
  ~ In k (map id local) ->
  recordFor k (mergeData dateValue local remote) =
  find (fun x => String.eqb (id x) k) (rev remote).
Proof.
  intros Hk. unfold mergeData.
  rewrite recordFor_values
    by apply wellKeyed_fold_addLocal, wellKeyed_fold_addRemote, wellKeyed_empty.
  rewrite get_fold_addLocal_other by assumption.
  rewrite get_fold_addRemote. simpl.
  now destruct (find (fun x => String.eqb (id x) k) (rev remote)).
Qed.

End MergeMore.

(* ================================================================== *)
(** ** The audit log: refused writes, newest entry, createAuditLog *)

Module AuditLogMore.
Import auditLogStorage AuditLogFacts.

Lemma addAll_snoc calls e ok item :
  addAll (calls ++ [(e, ok)]) item = add e ok (addAll calls item).
Proof. unfold addAll. now rewrite fold_left_app. Qed.

Lemma acceptedLogs_snoc calls e ok :
  acceptedLogs (calls ++ [(e, ok)]) =
  acceptedLogs calls ++ (if ok then [e] else []).
Proof.
  unfold acceptedLogs. rewrite filter_app, map_app. simpl.
  now destruct ok.
Qed.

(** X6. After any run of [add] calls on a log within the bound, [getAll]
    returns the most recent 1000 of the entries whose write was accepted,
    oldest first, after the entries the log held: an entry whose write was
    refused is skipped and the others keep their order. *)
Theorem addAll_keeps_accepted_in_order calls item :
  (List.length (getAll item) <= 1000)%nat ->
  getAll (addAll calls item) =
  mostRecent 1000 (getAll item ++ acceptedLogs calls).
Proof.
  intros Hle. induction calls as [|[e ok] calls IH] using rev_ind.
  - simpl. rewrite app_nil_r. now rewrite mostRecent_short.
  - rewrite addAll_snoc, acceptedLogs_snoc. destruct ok.
    + rewrite getAll_add_accepted, IH, mostRecent_snoc.
      now rewrite app_assoc.
    + unfold add. simpl. now rewrite app_nil_r.
Qed.

Lemma add_accepted_splits e item :
  exists evicted older,
    getAll item = evicted ++ older /\
    getAll (add e true item) = older ++ [e].
Proof.
  set (l := getAll item).
  set (n := (List.length l + 1 - 1000)%nat).
  exists (firstn n l), (skipn n l). split.
  - now rewrite firstn_skipn.
  - rewrite getAll_add_accepted. unfold mostRecent. fold l.
    rewrite length_app. simpl List.length. fold n. rewrite skipn_app.
    replace (n - List.length l)%nat with 0%nat by (unfold n; lia).
    reflexivity.
Qed.

(** X7. After an accepted [add], the new entry is the last one [getAll]
    returns, and the entries before it are the end of the previous log:
    only entries at the front are dropped. *)
Theorem add_accepted_is_newest e item :
  exists evicted older,
    getAll item = evicted ++ older /\
    getAll (add e true item) = older ++ [e].
Proof. apply add_accepted_splits. Qed.

(** X8. After [clear], a run of at most 1000 accepted [add] calls is read
    back by [getAll] entry for entry, in the order of the calls. *)
Theorem clear_then_add_reads_back logs item :
  (List.length logs <= 1000)%nat ->
  getAll (addAll (written logs) (clear item)) = logs.
Proof.
  intros Hle. rewrite getAll_addAll_written by (simpl; lia).
  simpl. now apply mostRecent_short.
Qed.

(** X9. [createAuditLog] throws exactly when the stored current user
    cannot be read (its text is not JSON, or is the JSON [null]), and then
    the audit log is as it was; with any other stored user it returns
    normally, also when the write of the entry is refused. *)
Theorem createAuditLog_throws_iff_user_unreadable
    user uuid now ok action entityType entityId details item :
  let res := createAuditLog user uuid now ok action entityType entityId
               details item in
  ((exists e, fst res = Throws e) <->
   user = currentUser.Malformed \/ user = currentUser.JsonNull) /\
  ((exists e, fst res = Throws e) -> snd res = item) /\
  (user <> currentUser.Malformed -> user <> currentUser.JsonNull ->
   fst res = Normal tt).
Proof.
  destruct user; simpl; repeat split;
    try (intros [e He]; discriminate);
    try (intros [Hm|Hn]; discriminate);
    try (intros; exists "SyntaxError"; reflexivity);
    try (intros; exists "TypeError"; reflexivity);
    try (intros; reflexivity);
    try (intros _; now left); try (intros _; now right);
    try congruence.
Qed.

(** X10. With a stored current user and an accepted write,
    [createAuditLog] returns normally and the entry it records is the
    newest of the log; the entry carries the given identifier and time and
    the caller's four fields, and the user's id and name, each replaced by
    [unknown] (the id) or [System] (the name) when the stored user has none
    or an empty one. *)
Theorem createAuditLog_records_newest_entry
    userId userName uuid now action entityType entityId details item :
  let res := createAuditLog (currentUser.User userId userName) uuid now true
               action entityType entityId details item in
  fst res = Normal tt /\
  exists older entry,
    getAll (snd res) = older ++ [entry] /\
    (id entry, timestamp entry) = (uuid, now) /\
    (auditLogStorage.action entry, auditLogStorage.entityType entry,
     auditLogStorage.entityId entry, auditLogStorage.details entry)
    = (action, entityType, entityId, details) /\
    (forall s, userId = Some s -> s <> "" ->
               auditLogStorage.userId entry = s) /\
    (userId = None \/ userId = Some "" ->
     auditLogStorage.userId entry = "unknown") /\
    (forall s, userName = Some s -> s <> "" ->
               auditLogStorage.username entry = s) /\
    (userName = None \/ userName = Some "" ->
     auditLogStorage.username entry = "System").
Proof.
  intros res. subst res. unfold createAuditLog.
  cbn -[add getAll orElse].
  split; [reflexivity|].
  match goal with
  | |- context [add ?entry true item] =>
      destruct (add_accepted_splits entry item)
        as (evicted & older & _ & Hnew);
      exists older, entry
  end.
  split; [exact Hnew|]. cbn -[orElse].
  split; [reflexivity|]. split; [reflexivity|].
  assert (Hor : forall (o : option string) d,
             (forall s, o = Some s -> s <> "" -> orElse o d = s) /\
             (o = None \/ o = Some "" -> orElse o d = d)).
  { intros o d. unfold orElse, truthy. split.
    - intros s0 -> Hne. destruct (String.eqb_spec s0 ""); [contradiction|].
      reflexivity.
    - intros [-> | ->]; reflexivity. }
  destruct (Hor userId "unknown") as [H1 H2].
  destruct (Hor userName "System") as [H3 H4].
  repeat split; assumption.
Qed.

End AuditLogMore.

(* ================================================================== *)
(** ** The configuration gate *)

Section Configuration.
Local Open Scope string_scope.

Lemma prefix_iff (s h : string) :
  String.prefix s h = true <-> exists after, h = s ++ after.
Proof.
  revert h. induction s as [|c s IH]; intros h.
  - split; [intros _; now exists h | intros _; now destruct h].
  - destruct h as [|c' h]; simpl.
    + split; [discriminate | intros [a Ha]; discriminate].
    + destruct (Ascii.ascii_dec c c') as [->|Hne].
      * rewrite IH. split; intros [a Ha]; exists a; congruence.
      * split; [discriminate | intros [a Ha]; congruence].
Qed.

Lemma includes_unfold (s h : string) :
  includes s h =
  if String.prefix s h then true
  else match h with
       | EmptyString => false
       | String _ rest => includes s rest
       end.
Proof. now destruct h. Qed.

(** [includes] is substring search: it answers true exactly when the text
    holds the searched string somewhere. *)
Lemma includes_iff_contains (s h : string) :
  includes s h = true <-> contains s h.
Proof.
  unfold contains. induction h as [|c h IH]; rewrite includes_unfold.
  - destruct (String.prefix s "") eqn:Hp.
    + split; [intros _|reflexivity].
      apply prefix_iff in Hp. destruct Hp as [a Ha]. now exists "", a.
    + split; [discriminate|]. intros (b & a & Hba).
      destruct b as [|cb b]; [|discriminate].
      assert (String.prefix s "" = true) by (apply prefix_iff; now exists a).
      congruence.
  - destruct (String.prefix s (String c h)) eqn:Hp.
    + split; [intros _|reflexivity].
      apply prefix_iff in Hp. destruct Hp as [a Ha]. now exists "", a.
    + rewrite IH. split.
      * intros (b & a & ->). now exists (String c b), a.
      * intros (b & a & Hba). destruct b as [|cb b].
        -- assert (String.prefix s (String c h) = true)
             by (apply prefix_iff; now exists a).
           congruence.
        -- simpl in Hba. injection Hba as _ ->. now exists b, a.
Qed.

(** X11. The gateway counts as configured exactly when the URL variable is
    set to a text that holds [supabase.co] and the key variable, if set,
    does not hold [placeholder]: a missing key does not stop the gate, a
    missing URL does. *)
Theorem isSupabaseConfigured_iff (env : Env) :
  isSupabaseConfigured env = true <->
  (exists url, VITE_SUPABASE_URL env = Some url /\ contains "supabase.co" url)
  /\ (forall key, VITE_SUPABASE_ANON_KEY env = Some key ->
                  ~ contains "placeholder" key).
Proof.
  unfold isSupabaseConfigured. rewrite andb_true_iff, negb_true_iff.
  rewrite includes_iff_contains, <- not_true_iff_false, includes_iff_contains.
  destruct env as [[url|] [key|]]; simpl; split.
  - intros [Hu Hk]. split; [now exists url | intros k [= <-]; exact Hk].
  - intros [(u & [= <-] & Hu) Hk]. split; [exact Hu | now apply Hk].
  - intros [Hu Hk]. split; [now exists url | intros k [=]].
  - intros [(u & [= <-] & Hu) _]. split; [exact Hu|].
    intros (b & a & Hba). destruct b; discriminate.
  - intros [(b & a & Hba) _]. destruct b; discriminate.
  - intros [(u & [=] & _) _].
  - intros [(b & a & Hba) _]. destruct b; discriminate.
  - intros [(u & [=] & _) _].
Qed.

End Configuration.

(* ================================================================== *)
(** ** The upsert helpers and the replay, for any remote store *)

Section SyncMore.
Variable Remote : Type.
Variable respond : Remote -> Request -> Settled * Remote.
Variable env : Env.
Implicit Types (w : World Remote) (a : QueuedAction.t).

(** X12. With the gateway configured, each of the four upsert helpers
    sends one request, the upsert of its whole local collection to its own
    table, and leaves the local store as it is; it throws when the promise
    is rejected and also when the result carries an error, and returns
    normally otherwise. *)
Theorem upsert_helpers_send_one_upsert w :
  isSupabaseConfigured env = true ->
  let run (table : string) (rows : list Entity) :=
    let req := Upsert table rows in
    (upsertCompletion (fst (respond (remote w) req)),
     answered w req (snd (respond (remote w) req))) in
  syncMedicines respond env w = run "medicines" (medicines (store w)) /\
  syncSales respond env w = run "sales" (sales (store w)) /\
  syncRefunds respond env w = run "refunds" (refunds (store w)) /\
  syncExpenses respond env w = run "expenses" (expenses (store w)).
Proof.
  intros Hc run. unfold run, syncMedicines, syncSales, syncRefunds,
    syncExpenses.
  rewrite Hc.
  cbv [negb bind gets await send awaitSettled answered ret throw
       medicineStorage.getAll salesStorage.getAll refundsStorage.getAll
       expensesStorage.getAll].
  repeat split;
    match goal with
    | |- context [respond (remote w) ?req] =>
        destruct (respond (remote w) req) as [[res|e] r']; simpl;
        [destruct (error res)|]; reflexivity
    end.
Qed.

(** X13. [processQueuedAction] never changes the local store, sends the
    request of its action and nothing else, and throws exactly when that
    request's promise is rejected, with the error of the rejection. *)
Theorem processQueuedAction_effects a w :
  let res := processQueuedAction respond a w in
  store (snd res) = store w /\
  sent (snd res) = sent w ++ requestsOf [a] /\
  (forall e,
      fst res = Throws e <->
      exists req, requestOf a = Some req /\
                  fst (respond (remote w) req) = Rejected e).
Proof.
  intros res. unfold res. rewrite processQueuedAction_cases.
  unfold requestsOf. simpl.
  destruct (requestOf a) as [req|]; simpl.
  - destruct (respond (remote w) req) as [[x|e0] r'] eqn:Hres; simpl;
      (split; [reflexivity | split; [reflexivity|]]); intros e; split.
    + discriminate.
    + intros (req' & [= <-] & Hrej). rewrite Hres in Hrej. discriminate.
    + intros [= ->]. exists req. now rewrite Hres.
    + intros (req' & [= <-] & Hrej). rewrite Hres in Hrej. simpl in Hrej.
      congruence.
  - split; [reflexivity | split; [now rewrite app_nil_r|]].
    intros e. split; [discriminate | intros (req & Hreq & _); discriminate].
Qed.

(** X14. Whatever the [type] of a queued action, its request goes to one
    of the four tables, and a type other than medicine, sale and refund
    (a misspelt one, say) is sent to the expenses table. *)
Theorem queued_request_table a req :
  requestOf a = Some req ->
  In (requestTable req) ["medicines"; "sales"; "refunds"; "expenses"] /\
  (QueuedAction.type a <> "medicine" -> QueuedAction.type a <> "sale" ->
   QueuedAction.type a <> "refund" -> requestTable req = "expenses").
Proof.
  unfold requestOf.
  assert (Htable : forall t,
             In (tableOf t) ["medicines"; "sales"; "refunds"; "expenses"] /\
             (t <> "medicine" -> t <> "sale" -> t <> "refund" ->
              tableOf t = "expenses")).
  { intros t. unfold tableOf.
    destruct (String.eqb_spec t "medicine");
      [split; [simpl; auto | contradiction]|].
    destruct (String.eqb_spec t "sale");
      [split; [simpl; auto | contradiction]|].
    destruct (String.eqb_spec t "refund");
      [split; [simpl; auto | contradiction]|].
    split; [simpl; auto | reflexivity]. }
  destruct (String.eqb (QueuedAction.action a) "create");
    [intros [= <-]; apply Htable|].
  destruct (String.eqb (QueuedAction.action a) "update");
    [intros [= <-]; apply Htable|].
  destruct (String.eqb (QueuedAction.action a) "delete");
    [intros [= <-]; apply Htable | discriminate].
Qed.

(** X15. Whether the gateway is configured or not, [processQueue] never
    throws, leaves the four collections and the connectivity flag as they
    are, and adds nothing to the queue: every action queued after the pass
    was queued before it. *)
Theorem processQueue_never_throws_nor_touches_collections w :
  let res := processQueue respond env w in
  fst res = Normal tt /\
  collections (store (snd res)) = collections (store w) /\
  offline (store (snd res)) = offline (store w) /\
  (forall x, In x (queue (store (snd res))) -> In x (queue (store w))).
Proof.
  intros res. unfold res, collections.
  split; [apply processQueue_normal|].
  destruct (processQueue_frame Remote respond env w) as (-> & -> & -> & -> & ->).
  split; [reflexivity | split; [reflexivity|]].
  unfold processQueue. destruct (isSupabaseConfigured env); [|simpl; tauto].
  intros x. apply forOf_queue_shrinks.
Qed.

Lemma forOf_removes_fulfilled q w a x :
  alwaysFulfils respond -> In a q ->
  In x (queue (store (snd (forOf q (processQueueStep respond) w)))) ->
  QueuedAction.id x <> QueuedAction.id a.
Proof.
  intros Hful. revert w. induction q as [|b q IH]; intros w Hin;
    [contradiction|].
  rewrite forOf_cons. destruct Hin as [->|Hin]; [|now apply IH].
  intros Hx. apply forOf_queue_shrinks in Hx.
  rewrite processQueueStep_cases in Hx.
  destruct (requestOf a) as [req|].
  - destruct (Hful (remote w) req) as (res & r' & Hres). rewrite Hres in Hx.
    simpl in Hx. now apply in_queue_remove in Hx.
  - simpl in Hx. now apply in_queue_remove in Hx.
Qed.

(** X16. When the remote store fulfils every promise, with or without an
    error in the result, a pass of [processQueue] (gateway configured)
    empties the queue. *)
Theorem processQueue_empties_queue_when_fulfilled w :
  alwaysFulfils respond -> isSupabaseConfigured env = true ->
  queue (store (snd (processQueue respond env w))) = [].
Proof.
  intros Hful Hc. rewrite processQueue_configured by assumption.
  destruct (queue (store (snd (forOf (queue (store w))
                                 (processQueueStep respond) w))))
    as [|x rest] eqn:Hq; [reflexivity|].
  exfalso.
  assert (Hx : In x (queue (store (snd (forOf (queue (store w))
                                          (processQueueStep respond) w)))))
    by (rewrite Hq; now left).
  pose proof (forOf_queue_shrinks _ _ _ _ _ Hx) as Hbefore.
  exact (forOf_removes_fulfilled _ _ _ _ Hful Hbefore Hx eq_refl).
Qed.

Lemma forOf_keeps_store_when_rejected q w :
  alwaysRejects respond ->
  (forall a, In a q -> requestOf a <> None) ->
  store (snd (forOf q (processQueueStep respond) w)) = store w.
Proof.
  intros Hrej. revert w. induction q as [|b q IH]; intros w Hknown;
    [reflexivity|].
  rewrite forOf_cons, IH by (intros a Ha; apply Hknown; now right).
  rewrite processQueueStep_cases.
  destruct (requestOf b) as [req|] eqn:Hreq;
    [|exfalso; apply (Hknown b); [now left | assumption]].
  destruct (Hrej (remote w) req) as (e & r' & Hres). now rewrite Hres.
Qed.

(** X17. When the remote store rejects every promise (it is out of
    reach), a pass of [processQueue] over create, update and delete
    actions leaves the whole local store as it is: every action is still
    queued, in the same order. *)
Theorem processQueue_keeps_queue_when_rejected w :
  alwaysRejects respond ->
  (forall a, In a (queue (store w)) -> requestOf a <> None) ->
  store (snd (processQueue respond env w)) = store w.
Proof.
  intros Hrej Hknown. unfold processQueue.
  destruct (isSupabaseConfigured env); [|reflexivity].
  now apply forOf_keeps_store_when_rejected.
Qed.

End SyncMore.

(* ================================================================== *)
(** ** Full synchronisation, for any remote store *)

Section FullSyncMore.
Variable dateValue : string -> option Z.
Variable Remote : Type.
Variable respond : Remote -> Request -> Settled * Remote.
Variable env : Env.
Implicit Types (w : World Remote).

Lemma fetches_cases (r : Remote) :
  exists p1 r1 p2 r2 p3 r3 p4 r4,
    respond r (Select "medicines") = (p1, r1) /\
    respond r1 (Select "sales") = (p2, r2) /\
    respond r2 (Select "refunds") = (p3, r3) /\
    respond r3 (Select "expenses") = (p4, r4) /\
    fetches respond r = [p1; p2; p3; p4].
Proof.
  unfold fetches.
  destruct (respond r (Select "medicines")) as [p1 r1].
  destruct (respond r1 (Select "sales")) as [p2 r2] eqn:H2.
  destruct (respond r2 (Select "refunds")) as [p3 r3] eqn:H3.
  destruct (respond r3 (Select "expenses")) as [p4 r4] eqn:H4.
  exists p1, r1, p2, r2, p3, r3, p4, r4. now rewrite H2, H3, H4.
Qed.

(** With four fulfilled promises, [fullSync] is the replay of the queue on
    the merged store, followed by the flag set to online. *)
Lemma fullSync_fulfilled_world w x1 r1 x2 r2 x3 r3 x4 r4 :
  isSupabaseConfigured env = true ->
  respond (remote w) (Select "medicines") = (Fulfilled x1, r1) ->
  respond r1 (Select "sales") = (Fulfilled x2, r2) ->
  respond r2 (Select "refunds") = (Fulfilled x3, r3) ->
  respond r3 (Select "expenses") = (Fulfilled x4, r4) ->
  fullSync dateValue respond env w =
  let w5 := snd (processQueue respond env
                   {| store := mergedStore dateValue (store w) x1 x2 x3 x4;
                      remote := r4;
                      sent := sent w ++ selects |}) in
  (Normal tt, withStore w5 (offlineStorage.setOffline false (store w5))).
Proof.
  intros Hc H1 H2 H3 H4.
  unfold fullSync, tryCatch, bind, send, promiseAll4. rewrite Hc. simpl.
  rewrite H1. simpl. rewrite H2. simpl. rewrite H3. simpl. rewrite H4.
  simpl. unfold mergeInto, mergedStore, mergedWith, bind, gets, modify, ret,
    selects, withStore.
  rewrite <- !app_assoc. simpl.
  destruct w as [[ms ss rs es q o] r l]. simpl.
  destruct (data x1), (data x2), (data x3), (data x4);
    unfold medicineStorage.save, salesStorage.save, refundsStorage.save,
      expensesStorage.save, medicineStorage.getAll, salesStorage.getAll,
      refundsStorage.getAll, expensesStorage.getAll; simpl;
    match goal with
    | |- context [processQueue respond env ?w0] =>
        pose proof (processQueue_normal Remote respond env w0) as Hn;
        destruct (processQueue respond env w0) as [c w5];
        simpl in Hn; subst c; reflexivity
    end.
Qed.

Lemma mergedWith_again (rows : list Entity) (x : Result) :
  mergedWith dateValue (mergedWith dateValue rows x) x =
  mergedWith dateValue rows x.
Proof.
  unfold mergedWith. destruct (data x) as [remoteRows|]; [|reflexivity].
  unfold mergeData.
  set (seed := fold_left addRemote remoteRows (JsMap.empty Entity)).
  assert (Hseed : wellKeyed seed)
    by apply wellKeyed_fold_addRemote, wellKeyed_empty.
  destruct (fold_addLocal_shape dateValue rows seed seed []
              (refines_refl dateValue seed)) as (m1 & extra & Heq & Href).
  rewrite app_nil_r in Heq.
  pose proof (wellKeyed_fold_addLocal dateValue rows seed Hseed) as Hw.
  rewrite Heq in *. f_equal.
  apply (replay_refined dateValue _ _ Href [] extra Hw).
Qed.

(** X18. With the gateway configured, [fullSync] throws exactly when one
    of its four fetch promises is rejected.  When it throws, the error is
    that of a rejected promise, the flag is set to offline, the collections
    and the queue are as they were, and only the four fetches were sent:
    the queue was not replayed. *)
Theorem fullSync_throws_iff_fetch_rejected w :
  isSupabaseConfigured env = true ->
  let res := fullSync dateValue respond env w in
  ((exists e, fst res = Throws e) <->
   (exists e, In (Rejected e) (fetches respond (remote w)))) /\
  (forall e,
      fst res = Throws e ->
      In (Rejected e) (fetches respond (remote w)) /\
      store (snd res) = offlineStorage.setOffline true (store w) /\
      sent (snd res) = sent w ++ selects).
Proof.
  intros Hc res.
  destruct (fetches_cases (remote w))
    as (p1 & r1 & p2 & r2 & p3 & r3 & p4 & r4 & H1 & H2 & H3 & H4 & Hf).
  rewrite Hf.
  assert (Hcases :
    (exists e, In (Rejected e) [p1; p2; p3; p4]) \/
    (exists x1 x2 x3 x4, p1 = Fulfilled x1 /\ p2 = Fulfilled x2 /\
                         p3 = Fulfilled x3 /\ p4 = Fulfilled x4)).
  { destruct p1 as [x1|e1]; [|left; exists e1; simpl; auto].
    destruct p2 as [x2|e2]; [|left; exists e2; simpl; auto].
    destruct p3 as [x3|e3]; [|left; exists e3; simpl; auto].
    destruct p4 as [x4|e4]; [|left; exists e4; simpl; auto].
    right. now exists x1, x2, x3, x4. }
  destruct Hcases as [Hrej | (x1 & x2 & x3 & x4 & -> & -> & -> & ->)].
  - destruct (fullSync_rejected_fetch_aborts dateValue Remote respond env w
                p1 r1 p2 r2 p3 r3 p4 r4 Hc H1 H2 H3 H4 Hrej)
      as (e & Hin & Hrun).
    unfold res. rewrite Hrun. simpl. split.
    + split; [intros _; exact Hrej | intros _; now exists e].
    + intros e' [= <-]. auto.
  - unfold res.
    rewrite (fullSync_fulfilled_world w x1 r1 x2 r2 x3 r3 x4 r4 Hc H1 H2 H3 H4).
    simpl. split.
    + split; [intros [e He]; discriminate|].
      intros [e Hin]. simpl in Hin.
      repeat (destruct Hin as [Hin|Hin]; [discriminate|]). contradiction.
    + intros e He. discriminate.
Qed.

(** X19. With the gateway configured and the four fetch promises
    fulfilled, [fullSync] returns normally with the flag set to online;
    each collection is the merge of the local rows with the rows of its
    result, or is unchanged when the result carries no rows; the requests
    sent are the four fetches followed by the replay of the queue; and no
    action is added to the queue. *)
Theorem fullSync_fulfilled_merges_and_replays w x1 x2 x3 x4 :
  isSupabaseConfigured env = true ->
  fetches respond (remote w)
  = [Fulfilled x1; Fulfilled x2; Fulfilled x3; Fulfilled x4] ->
  let res := fullSync dateValue respond env w in
  fst res = Normal tt /\
  offline (store (snd res)) = false /\
  collections (store (snd res))
  = collections (mergedStore dateValue (store w) x1 x2 x3 x4) /\
  sent (snd res) = sent w ++ selects ++ requestsOf (queue (store w)) /\
  (forall a, In a (queue (store (snd res))) -> In a (queue (store w))).
Proof.
  intros Hc Hf res.
  destruct (fetches_cases (remote w))
    as (p1 & r1 & p2 & r2 & p3 & r3 & p4 & r4 & H1 & H2 & H3 & H4 & Hf').
  rewrite Hf in Hf'. injection Hf' as <- <- <- <-.
  unfold res.
  rewrite (fullSync_fulfilled_world w x1 r1 x2 r2 x3 r3 x4 r4 Hc H1 H2 H3 H4).
  set (w4 := {| store := mergedStore dateValue (store w) x1 x2 x3 x4;
                remote := r4; sent := sent w ++ selects |}).
  cbv zeta. simpl fst. simpl snd.
  destruct (processQueue_frame Remote respond env w4)
    as (Hm & Hs & Hr & He & _).
  split; [reflexivity | split; [reflexivity|]].
  split; [unfold collections; simpl; now rewrite Hm, Hs, Hr, He|].
  rewrite processQueue_configured by assumption.
  cbn [sent store withStore].
  split.
  - rewrite forOf_sent. unfold w4. cbn [sent store]. unfold mergedStore.
    cbn [queue]. now rewrite <- app_assoc.
  - intros a Ha. apply forOf_queue_shrinks in Ha. exact Ha.
Qed.

(** X20. A second [fullSync] whose four fetches are fulfilled with the
    results of the first leaves the four collections as the first left
    them. *)
Theorem fullSync_again_keeps_collections w x1 x2 x3 x4 :
  isSupabaseConfigured env = true ->
  fetches respond (remote w)
  = [Fulfilled x1; Fulfilled x2; Fulfilled x3; Fulfilled x4] ->
  let w1 := snd (fullSync dateValue respond env w) in
  fetches respond (remote w1)
  = [Fulfilled x1; Fulfilled x2; Fulfilled x3; Fulfilled x4] ->
  collections (store (snd (fullSync dateValue respond env w1)))
  = collections (store w1).
Proof.
  intros Hc Hf w1 Hf1.
  destruct (fetches_cases (remote w))
    as (p1 & r1 & p2 & r2 & p3 & r3 & p4 & r4 & H1 & H2 & H3 & H4 & Hf').
  rewrite Hf in Hf'. injection Hf' as <- <- <- <-.
  destruct (fetches_cases (remote w1))
    as (q1 & s1 & q2 & s2 & q3 & s3 & q4 & s4 & G1 & G2 & G3 & G4 & Hg).
  rewrite Hf1 in Hg. injection Hg as <- <- <- <-.
  destruct (fullSync_fulfilled_goes_online dateValue Remote respond env w
              x1 r1 x2 r2 x3 r3 x4 r4 Hc H1 H2 H3 H4)
    as (_ & _ & Em & Es & Er & Ee).
  destruct (fullSync_fulfilled_goes_online dateValue Remote respond env w1
              x1 s1 x2 s2 x3 s3 x4 s4 Hc G1 G2 G3 G4)
    as (_ & _ & Fm & Fs & Fr & Fe).
  unfold collections. rewrite Fm, Fs, Fr, Fe.
  unfold w1. rewrite Em, Es, Er, Ee.
  now rewrite !mergedWith_again.
Qed.

End FullSyncMore.

(* ================================================================== *)
(** ** The sign-in page: validation and handlers *)

Module AuthFacts.
Import Auth.

Lemma usernamePattern_iff (s : JsString) :
  usernamePattern s = true <-> s <> [] /\ forallb isWordChar s = true.
Proof.
  destruct s as [|c s]; simpl.
  - split; [discriminate | intros [Hne _]; now contradiction Hne].
  - split; [intros Hp; split; [discriminate | exact Hp] | tauto].
Qed.

(** X21. [loginSchema.parse] accepts exactly the inputs whose username,
    once trimmed, has 3 to 50 code units, all of them letters, digits or
    underscores, and whose password has 4 to 100 code units (both bounds
    included); the validated username is the trimmed one and the validated
    password is the password as typed. *)
Theorem loginSchema_parse_valid_iff (username password u p : JsString) :
  loginSchema_parse username password = Valid u p <->
  u = trim username /\ p = password /\
  (3 <= List.length u <= 50)%nat /\
  forallb isWordChar u = true /\
  (4 <= List.length p <= 100)%nat.
Proof.
  unfold loginSchema_parse, usernameIssues, passwordIssues.
  destruct (Nat.ltb_spec (List.length (trim username)) 3) as [Hmin|Hmin];
    [simpl; split; [discriminate | intros (-> & _ & Hlen & _); lia]|].
  destruct (Nat.ltb_spec 50 (List.length (trim username))) as [Hmax|Hmax];
    [simpl; split; [discriminate | intros (-> & _ & Hlen & _); lia]|].
  destruct (usernamePattern (trim username)) eqn:Hpat; simpl.
  - apply usernamePattern_iff in Hpat. destruct Hpat as [_ Hword].
    destruct (Nat.ltb_spec (List.length password) 4) as [Hpmin|Hpmin];
      [simpl; split; [discriminate | intros (_ & -> & _ & _ & Hlen); lia]|].
    destruct (Nat.ltb_spec 100 (List.length password)) as [Hpmax|Hpmax];
      [simpl; split; [discriminate | intros (_ & -> & _ & _ & Hlen); lia]|].
    simpl. split.
    + intros [= <- <-]. repeat split; assumption.
    + intros (-> & -> & _). reflexivity.
  - split; [discriminate|]. intros (-> & _ & Hlen & Hword & _).
    assert (usernamePattern (trim username) = true); [|congruence].
    apply usernamePattern_iff. split; [|assumption].
    intros Hnil. rewrite Hnil in Hlen. simpl in Hlen. lia.
Qed.

(** X22. When validation fails, the message shown is that of the first
    failing check in the order username length (too short, too long),
    username characters, password length (too short, too long): a trimmed
    username of fewer than 3 code units always gives the too-short message,
    whatever else is wrong. *)
Theorem loginSchema_parse_first_issue (username password : JsString) :
  let u := trim username in
  ((List.length u < 3)%nat ->
   exists others, loginSchema_parse username password =
     ZodError "Username must be at least 3 characters" others) /\
  ((50 < List.length u)%nat ->
   exists others, loginSchema_parse username password =
     ZodError "Username must be less than 50 characters" others) /\
  ((3 <= List.length u <= 50)%nat -> forallb isWordChar u = false ->
   exists others, loginSchema_parse username password =
     ZodError "Username can only contain letters, numbers, and underscores"
       others) /\
  ((3 <= List.length u <= 50)%nat -> forallb isWordChar u = true ->
   (List.length password < 4)%nat ->
   loginSchema_parse username password =
     ZodError "Password must be at least 4 characters" []) /\
  ((3 <= List.length u <= 50)%nat -> forallb isWordChar u = true ->
   (100 < List.length password)%nat ->
   loginSchema_parse username password =
     ZodError "Password must be less than 100 characters" []).
Proof.
  intros u. unfold loginSchema_parse, usernameIssues, passwordIssues.
  fold u.
  assert (Hpat : (3 <= List.length u)%nat ->
                 usernamePattern u = forallb isWordChar u).
  { destruct u; simpl; [lia | reflexivity]. }
  repeat split.
  - intros Hlen. destruct (Nat.ltb_spec (List.length u) 3); [|lia].
    simpl. eauto.
  - intros Hlen. destruct (Nat.ltb_spec (List.length u) 3); [lia|].
    destruct (Nat.ltb_spec 50 (List.length u)); [|lia]. simpl. eauto.
  - intros Hlen Hword.
    destruct (Nat.ltb_spec (List.length u) 3); [lia|].
    destruct (Nat.ltb_spec 50 (List.length u)); [lia|].
    rewrite Hpat, Hword by lia. simpl. eauto.
  - intros Hlen Hword Hp.
    destruct (Nat.ltb_spec (List.length u) 3); [lia|].
    destruct (Nat.ltb_spec 50 (List.length u)); [lia|].
    rewrite Hpat, Hword by lia.
    destruct (Nat.ltb_spec (List.length password) 4); [|lia].
    destruct (Nat.ltb_spec 100 (List.length password)); [lia|]. reflexivity.
  - intros Hlen Hword Hp.
    destruct (Nat.ltb_spec (List.length u) 3); [lia|].
    destruct (Nat.ltb_spec 50 (List.length u)); [lia|].
    rewrite Hpat, Hword by lia.
    destruct (Nat.ltb_spec (List.length password) 4); [lia|].
    destruct (Nat.ltb_spec 100 (List.length password)); [|lia]. reflexivity.
Qed.

Lemma trimStart_padding (pre s : JsString) :
  forallb isWhiteSpace pre = true -> trimStart (pre ++ s) = trimStart s.
Proof.
  induction pre as [|c pre IH]; simpl; [reflexivity|].
  rewrite andb_true_iff. intros [-> Hpre]. now apply IH.
Qed.

Lemma trimStart_blank (s : JsString) :
  trimStart s = [] <-> forallb isWhiteSpace s = true.
Proof.
  induction s as [|c s IH]; simpl; [tauto|].
  destruct (isWhiteSpace c); simpl; [exact IH|].
  split; discriminate.
Qed.

Lemma trimStart_app (s post : JsString) :
  trimStart s <> [] -> trimStart (s ++ post) = trimStart s ++ post.
Proof.
  induction s as [|c s IH]; simpl; [intros Hne; now contradiction Hne|].
  destruct (isWhiteSpace c); [exact IH | reflexivity].
Qed.

Lemma forallb_rev (f : N -> bool) (l : JsString) :
  forallb f l = true -> forallb f (rev l) = true.
Proof.
  rewrite !forallb_forall. intros Hl x Hx. apply Hl. now apply in_rev.
Qed.

Lemma trimEnd_padding (s post : JsString) :
  forallb isWhiteSpace post = true -> trimEnd (s ++ post) = trimEnd s.
Proof.
  intros Hpost. unfold trimEnd. rewrite rev_app_distr.
  now rewrite trimStart_padding by now apply forallb_rev.
Qed.

Lemma trim_padding (pre s post : JsString) :
  forallb isWhiteSpace pre = true -> forallb isWhiteSpace post = true ->
  trim (pre ++ s ++ post) = trim s.
Proof.
  intros Hpre Hpost. unfold trim. rewrite trimStart_padding by assumption.
  destruct (trimStart s) as [|c t] eqn:Hs.
  - apply trimStart_blank in Hs.
    assert (Hall : forallb isWhiteSpace (s ++ post) = true)
      by (rewrite forallb_app, Hs, Hpost; reflexivity).
    apply trimStart_blank in Hall. now rewrite Hall.
  - rewrite trimStart_app by (rewrite Hs; discriminate).
    rewrite Hs. now apply trimEnd_padding.
Qed.

Section HandlerFacts.
Variable login : JsString -> JsString -> Completion Outcome.
Variable register : JsString -> JsString -> Completion Outcome.

Lemma in_bracket (e : Effect) (attempt : list Effect) :
  e <> PreventDefault -> (forall b, e <> SetLoading b) ->
  (In e ([PreventDefault; SetLoading true] ++ attempt ++ [SetLoading false])
   <-> In e attempt).
Proof.
  intros Hpd Hsl. simpl. rewrite in_app_iff. simpl. split.
  - intros [H|[H|[H|[H|[]]]]]; try assumption; exfalso.
    + now apply Hpd.
    + now apply (Hsl true).
    + now apply (Hsl false).
  - tauto.
Qed.

Lemma loginAttempt_calls (username password a b : JsString) :
  In (CallLogin a b) (loginAttempt login username password) <->
  loginSchema_parse username password = Valid a b.
Proof.
  unfold loginAttempt.
  destruct (loginSchema_parse username password) as [u p|first others].
  - split.
    + intros [H|H]; [injection H as <- <-; reflexivity|]. exfalso.
      destruct (login u p) as [r|e]; [destruct (success r)|];
        simpl in H; intuition discriminate.
    + intros [= <- <-]. now left.
  - split; [intros [H|[]]; discriminate | discriminate].
Qed.

Lemma signupAttempt_calls (username password a b : JsString) :
  In (CallRegister a b) (signupAttempt register username password) <->
  loginSchema_parse username password = Valid a b.
Proof.
  unfold signupAttempt.
  destruct (loginSchema_parse username password) as [u p|first others].
  - split.
    + intros [H|H]; [injection H as <- <-; reflexivity|]. exfalso.
      destruct (register u p) as [r|e];
        [destruct (success r); [destruct (needsApproval r)|]|];
        simpl in H; intuition discriminate.
    + intros [= <- <-]. now left.
  - split; [intros [H|[]]; discriminate | discriminate].
Qed.

(** X23. [handleLogin] calls [authStorage.login], and [handleSignup] calls
    [authStorage.register], exactly when the input passes the validation,
    and then once, with the trimmed username and the password as typed;
    neither handler calls the other's function. *)
Theorem handlers_call_storage_only_when_valid (username password a b : JsString) :
  (In (CallLogin a b) (handleLogin login username password) <->
   loginSchema_parse username password = Valid a b) /\
  (In (CallRegister a b) (handleSignup register username password) <->
   loginSchema_parse username password = Valid a b) /\
  ~ In (CallRegister a b) (handleLogin login username password) /\
  ~ In (CallLogin a b) (handleSignup register username password) /\
  (List.length (filter isCall (handleLogin login username password)) <= 1)%nat /\
  (List.length (filter isCall (handleSignup register username password)) <= 1)%nat.
Proof.
  unfold handleLogin, handleSignup.
  rewrite !in_bracket by discriminate.
  split; [apply loginAttempt_calls|]. split; [apply signupAttempt_calls|].
  unfold loginAttempt, signupAttempt.
  destruct (loginSchema_parse username password) as [u p|first others].
  - destruct (login u p) as [r|e]; [destruct (success r)|];
      (destruct (register u p) as [r'|e'];
       [destruct (success r'); [destruct (needsApproval r')|]|]);
      simpl; repeat split; try lia; intuition discriminate.
  - simpl. repeat split; try lia; intuition discriminate.
Qed.

(** X24. Every run of [handleLogin] and of [handleSignup] starts with
    [preventDefault] and the loading flag set, ends with the loading flag
    cleared, and shows exactly one toast, whatever the input and whatever
    [authStorage] returns or throws. *)
Theorem handlers_reset_loading_and_toast_once (username password : JsString) :
  let runs := [handleLogin login username password;
               handleSignup register username password] in
  forall run, In run runs ->
    (exists middle,
        run = PreventDefault :: SetLoading true :: middle ++ [SetLoading false]
        /\ forall b, ~ In (SetLoading b) middle) /\
    List.length (filter isToast run) = 1%nat.
Proof.
  intros runs run [<-|[<-|[]]].
  - unfold handleLogin. split.
    + exists (loginAttempt login username password). split; [reflexivity|].
      intros b. unfold loginAttempt.
      destruct (loginSchema_parse username password) as [u p|first others];
        [destruct (login u p) as [r|e]; [destruct (success r)|]|];
        simpl; intuition discriminate.
    + unfold loginAttempt.
      destruct (loginSchema_parse username password) as [u p|first others];
        [destruct (login u p) as [r|e]; [destruct (success r)|]|];
        reflexivity.
  - unfold handleSignup. split.
    + exists (signupAttempt register username password).
      split; [reflexivity|].
      intros b. unfold signupAttempt.
      destruct (loginSchema_parse username password) as [u p|first others];
        [destruct (register u p) as [r|e];
         [destruct (success r); [destruct (needsApproval r)|]|]|];
        simpl; intuition discriminate.
    + unfold signupAttempt.
      destruct (loginSchema_parse username password) as [u p|first others];
        [destruct (register u p) as [r|e];
         [destruct (success r); [destruct (needsApproval r)|]|]|];
        reflexivity.
Qed.

Lemma loginAttempt_navigates (username password : JsString) (path : string) :
  In (Navigate path) (loginAttempt login username password) <->
  path = "/dashboard" /\
  exists u p r, loginSchema_parse username password = Valid u p /\
                login u p = Normal r /\ success r = true.
Proof.
  unfold loginAttempt.
  destruct (loginSchema_parse username password) as [u p|first others].
  - destruct (login u p) as [r|e] eqn:Hl; [destruct (success r) eqn:Hs|];
      simpl; split.
    + intros [H|[H|[H|[]]]]; try discriminate. injection H as <-.
      split; [reflexivity|]. now exists u, p, r.
    + intros [-> _]. auto.
    + intros [H|[H|[]]]; discriminate.
    + intros [_ (u' & p' & r' & [= <- <-] & Hr & Hs')]. congruence.
    + intros [H|[H|[]]]; discriminate.
    + intros [_ (u' & p' & r' & [= <- <-] & Hr & Hs')]. congruence.
  - simpl. split; [intros [H|[]]; discriminate|].
    intros [_ (u' & p' & r' & Hv & _)]. discriminate.
Qed.

Lemma signupAttempt_navigates (username password : JsString) (path : string) :
  In (Navigate path) (signupAttempt register username password) <->
  path = "/dashboard" /\
  exists u p r, loginSchema_parse username password = Valid u p /\
                register u p = Normal r /\ success r = true /\
                needsApproval r = false.
Proof.
  unfold signupAttempt.
  destruct (loginSchema_parse username password) as [u p|first others].
  - destruct (register u p) as [r|e] eqn:Hl;
      [destruct (success r) eqn:Hs; [destruct (needsApproval r) eqn:Hn|]|];
      simpl; split.
    + intros [H|[H|[H|[H|[]]]]]; discriminate.
    + intros [_ (u' & p' & r' & [= <- <-] & Hr & Hs' & Hn')]. congruence.
    + intros [H|[H|[H|[]]]]; try discriminate. injection H as <-.
      split; [reflexivity|]. now exists u, p, r.
    + intros [-> _]. auto.
    + intros [H|[H|[]]]; discriminate.
    + intros [_ (u' & p' & r' & [= <- <-] & Hr & Hs' & Hn')]. congruence.
    + intros [H|[H|[]]]; discriminate.
    + intros [_ (u' & p' & r' & [= <- <-] & Hr & Hs' & Hn')]. congruence.
  - simpl. split; [intros [H|[]]; discriminate|].
    intros [_ (u' & p' & r' & Hv & _)]. discriminate.
Qed.

(** X25. [handleLogin] navigates, and then to the dashboard, exactly when
    the input is valid and [authStorage.login] returns a success;
    [handleSignup] does so exactly when the input is valid and
    [authStorage.register] returns a success that needs no approval. *)
Theorem handlers_navigate_iff_success (username password : JsString) (path : string) :
  (In (Navigate path) (handleLogin login username password) <->
   path = "/dashboard" /\
   exists u p r, loginSchema_parse username password = Valid u p /\
                 login u p = Normal r /\ success r = true) /\
  (In (Navigate path) (handleSignup register username password) <->
   path = "/dashboard" /\
   exists u p r, loginSchema_parse username password = Valid u p /\
                 register u p = Normal r /\ success r = true /\
                 needsApproval r = false).
Proof.
  unfold handleLogin, handleSignup.
  rewrite !in_bracket by discriminate.
  split; [apply loginAttempt_navigates | apply signupAttempt_navigates].
Qed.

Lemma signupAttempt_resets (username password v : JsString) :
  In (SetUsername v) (signupAttempt register username password) \/
  In (SetPassword v) (signupAttempt register username password) <->
  v = [] /\
  exists u p r, loginSchema_parse username password = Valid u p /\
                register u p = Normal r /\ success r = true /\
                needsApproval r = true.
Proof.
  unfold signupAttempt.
  destruct (loginSchema_parse username password) as [u p|first others].
  - destruct (register u p) as [r|e] eqn:Hl;
      [destruct (success r) eqn:Hs; [destruct (needsApproval r) eqn:Hn|]|];
      simpl; split.
    + intros [H|H]; repeat (destruct H as [H|H]; try discriminate);
        try contradiction; injection H as <-;
        (split; [reflexivity | now exists u, p, r]).
    + intros [-> _]. left. auto.
    + intros [H|H]; repeat (destruct H as [H|H]; try discriminate);
        contradiction.
    + intros [_ (u' & p' & r' & [= <- <-] & Hr & Hs' & Hn')]. congruence.
    + intros [H|H]; repeat (destruct H as [H|H]; try discriminate);
        contradiction.
    + intros [_ (u' & p' & r' & [= <- <-] & Hr & Hs' & Hn')]. congruence.
    + intros [H|H]; repeat (destruct H as [H|H]; try discriminate);
        contradiction.
    + intros [_ (u' & p' & r' & [= <- <-] & Hr & Hs' & Hn')]. congruence.
  - simpl. split.
    + intros [H|H]; repeat (destruct H as [H|H]; try discriminate);
        contradiction.
    + intros [_ (u' & p' & r' & Hv & _)]. discriminate.
Qed.

Lemma loginAttempt_never_resets (username password v : JsString) :
  ~ In (SetUsername v) (loginAttempt login username password) /\
  ~ In (SetPassword v) (loginAttempt login username password).
Proof.
  unfold loginAttempt.
  destruct (loginSchema_parse username password) as [u p|first others];
    [destruct (login u p) as [r|e]; [destruct (success r)|]|];
    simpl; intuition discriminate.
Qed.

(** X26. [handleSignup] empties the two form fields exactly when the input
    is valid and [authStorage.register] returns a success that needs
    approval, the case in which it does not navigate; [handleLogin] never
    touches the fields. *)
Theorem signup_resets_form_iff_pending (username password v : JsString) :
  (In (SetUsername v) (handleSignup register username password) \/
   In (SetPassword v) (handleSignup register username password) <->
   v = [] /\
   exists u p r, loginSchema_parse username password = Valid u p /\
                 register u p = Normal r /\ success r = true /\
                 needsApproval r = true) /\
  ~ In (SetUsername v) (handleLogin login username password) /\
  ~ In (SetPassword v) (handleLogin login username password).
Proof.
  unfold handleLogin, handleSignup.
  rewrite !in_bracket by discriminate.
  split; [apply signupAttempt_resets | apply loginAttempt_never_resets].
Qed.

(** X27. White space around the username never matters: with any run of
    white space before and after it, the validation gives the same outcome
    and both handlers do the same, the call of [authStorage] included. *)
Theorem username_padding_is_ignored (pre username post password : JsString) :
  forallb isWhiteSpace pre = true -> forallb isWhiteSpace post = true ->
  loginSchema_parse (pre ++ username ++ post) password
  = loginSchema_parse username password /\
  handleLogin login (pre ++ username ++ post) password
  = handleLogin login username password /\
  handleSignup register (pre ++ username ++ post) password
  = handleSignup register username password.
Proof.
  intros Hpre Hpost.
  assert (Hparse : loginSchema_parse (pre ++ username ++ post) password
                   = loginSchema_parse username password).
  { unfold loginSchema_parse, usernameIssues.
    now rewrite trim_padding by assumption. }
  unfold handleLogin, handleSignup, loginAttempt, signupAttempt.
  now rewrite Hparse.
Qed.

End HandlerFacts.
End AuthFacts.

(* ================================================================== *)
(** ** The further properties on the sample data *)

Lemma mergeData_empty_side_witness :
  mergeData Sample.dates Sample.localRows [] = Sample.localRows /\
  mergeData Sample.dates [] Sample.remoteRows = Sample.remoteRows.
Proof.
  split.
  - apply (proj1 (mergeData_empty_side Sample.dates)). distinct.
  - apply (proj2 (mergeData_empty_side Sample.dates)). distinct.
Defined.

Lemma mergeData_same_snapshot_witness :
  mergeData Sample.dates Sample.localRows Sample.localRows = Sample.localRows.
Proof. apply (mergeData_same_snapshot Sample.dates). distinct. Defined.

Lemma mergeData_records_from_inputs_witness :
  In Sample.m3Remote Sample.localRows \/ In Sample.m3Remote Sample.remoteRows.
Proof.
  apply (mergeData_records_from_inputs Sample.dates).
  simpl. auto.
Defined.

Lemma mergeData_remote_ids_first_witness :
  exists news,
    map id (mergeData Sample.dates Sample.localRows Sample.remoteRows)
    = map id Sample.remoteRows ++ news /\
    (forall k, In k news ->
               In k (map id Sample.localRows) /\
               ~ In k (map id Sample.remoteRows)).
Proof. apply (mergeData_remote_ids_first Sample.dates). distinct. Defined.

Lemma mergeData_last_remote_duplicate_wins_witness :
  recordFor "m1" (mergeData Sample.dates [Sample.m2Local] Sample2.remoteTwice)
  = Some Sample.m1Local.
Proof.
  refine (eq_trans (mergeData_last_remote_duplicate_wins Sample.dates
                      [Sample.m2Local] Sample2.remoteTwice "m1" _) eq_refl).
  simpl. intuition discriminate.
Defined.

Lemma addAll_keeps_accepted_in_order_witness :
  auditLogStorage.getAll
    (auditLogStorage.addAll Sample2.calls auditLogStorage.Absent)
  = [Sample.logEntry 1; Sample.logEntry 3].
Proof.
  apply (AuditLogMore.addAll_keeps_accepted_in_order Sample2.calls
           auditLogStorage.Absent).
  simpl. lia.
Defined.

Lemma clear_then_add_reads_back_witness :
  auditLogStorage.getAll
    (auditLogStorage.addAll
       (auditLogStorage.written [Sample.logEntry 1; Sample.logEntry 2])
       (auditLogStorage.clear auditLogStorage.Unreadable))
  = [Sample.logEntry 1; Sample.logEntry 2].
Proof.
  apply (AuditLogMore.clear_then_add_reads_back
           [Sample.logEntry 1; Sample.logEntry 2] auditLogStorage.Unreadable).
  simpl. lia.
Defined.

Lemma upsert_helpers_send_one_upsert_witness :
  syncSales Sample.refusing Sample.configured (Sample.world Sample.localStore)
  = (Throws "permission denied",
     answered (Sample.world Sample.localStore)
       (Upsert "sales" Sample.localRows) tt).
Proof.
  apply (proj1 (proj2 (upsert_helpers_send_one_upsert unit Sample.refusing
                         Sample.configured (Sample.world Sample.localStore)
                         eq_refl))).
Defined.

Lemma queued_request_table_witness :
  requestTable (Insert "expenses" Sample.m2Local) = "expenses".
Proof.
  apply (proj2 (queued_request_table Sample2.createOdd
                  (Insert "expenses" Sample.m2Local) eq_refl));
    discriminate.
Defined.

Lemma refusing_alwaysFulfils : alwaysFulfils Sample.refusing.
Proof. intros r req. now exists Sample.refused, r. Qed.

Lemma rejecting_alwaysRejects : alwaysRejects Sample.rejecting.
Proof. intros r req. now exists "Failed to fetch", r. Qed.

Lemma processQueue_empties_queue_when_fulfilled_witness :
  queue (store (snd (processQueue Sample.refusing Sample.configured
                       (Sample.world Sample.pendingStore)))) = [].
Proof.
  apply (processQueue_empties_queue_when_fulfilled unit Sample.refusing
           Sample.configured (Sample.world Sample.pendingStore)
           refusing_alwaysFulfils eq_refl).
Defined.

Lemma processQueue_keeps_queue_when_rejected_witness :
  store (snd (processQueue Sample.rejecting Sample.configured
                (Sample.world Sample.pendingStore)))
  = Sample.pendingStore.
Proof.
  apply (processQueue_keeps_queue_when_rejected unit Sample.rejecting
           Sample.configured (Sample.world Sample.pendingStore)
           rejecting_alwaysRejects).
  intros a [<-|[<-|[]]]; discriminate.
Defined.

Lemma fullSync_throws_iff_fetch_rejected_witness :
  exists e,
    fst (fullSync Sample.dates Sample.rejecting Sample.configured
           (Sample.world Sample.localStore)) = Throws e.
Proof.
  apply (proj1 (fullSync_throws_iff_fetch_rejected Sample.dates unit
                  Sample.rejecting Sample.configured
                  (Sample.world Sample.localStore) eq_refl)).
  exists "Failed to fetch". simpl. auto.
Defined.

Lemma fullSync_fulfilled_merges_and_replays_witness :
  offline (store (snd (fullSync Sample.dates Sample.medicinesRefused
                         Sample.configured
                         (Sample.world Sample.localStore)))) = false.
Proof.
  apply (fullSync_fulfilled_merges_and_replays Sample.dates unit
           Sample.medicinesRefused Sample.configured
           (Sample.world Sample.localStore)
           Sample.refused (Sample.rows Sample.remoteRows)
           (Sample.rows Sample.remoteRows) (Sample.rows Sample.remoteRows)
           eq_refl eq_refl).
Defined.

Lemma fullSync_again_keeps_collections_witness :
  let w1 := snd (fullSync Sample.dates Sample.medicinesRefused
                   Sample.configured (Sample.world Sample.localStore)) in
  collections (store (snd (fullSync Sample.dates Sample.medicinesRefused
                             Sample.configured w1)))
  = collections (store w1).
Proof.
  apply (fullSync_again_keeps_collections Sample.dates unit
           Sample.medicinesRefused Sample.configured
           (Sample.world Sample.localStore)
           Sample.refused (Sample.rows Sample.remoteRows)
           (Sample.rows Sample.remoteRows) (Sample.rows Sample.remoteRows)
           eq_refl eq_refl eq_refl).
Defined.

Lemma handlers_reset_loading_and_toast_once_witness :
  List.length
    (filter Auth.isToast
       (Auth.handleLogin Sample2.welcome Sample2.paddedName Sample2.secret))
  = 1%nat.
Proof.
  apply (proj2 (AuthFacts.handlers_reset_loading_and_toast_once
                  Sample2.welcome Sample2.welcome
                  Sample2.paddedName Sample2.secret
                  (Auth.handleLogin Sample2.welcome Sample2.paddedName
                     Sample2.secret)
                  (or_introl eq_refl))).
Defined.

Lemma username_padding_is_ignored_witness :
  Auth.handleLogin Sample2.welcome Sample2.paddedName Sample2.secret
  = Auth.handleLogin Sample2.welcome (Auth.ofString "bob_1") Sample2.secret.
Proof.
  apply (AuthFacts.username_padding_is_ignored Sample2.welcome Sample2.welcome
           (Auth.ofString "  ") (Auth.ofString "bob_1") (Auth.ofString " ")
           Sample2.secret eq_refl eq_refl).
Defined.
